(** * go-repo-sync: the branch and tag mirroring driver of [main.go]

    The program is glue over the go-git library: every step that touches a
    repository is a library call.  The development therefore has three layers.

    - The data of [main.go] ([Remote], [Repo], [RepoSync]) and the pure
      functions on reference names.
    - The program itself, written in a small monad that threads the state of
      the outside world, records every library call with its answer and every
      log line in a trace, and stops on [os.Exit] or on a Go panic.  The
      library is a parameter: the theorems of this layer hold for every
      behaviour of it.
    - [RefGit], a reference semantics of the library calls over reference
      tables, used to run the program on concrete repositories. *)

From Stdlib Require Import String Ascii List ZArith Bool.
From stdpp Require Import base option list strings gmap.
Import ListNotations.

Local Open Scope string_scope.
Local Open Scope list_scope.

(** ** Data of the input file (main.go, lines 34-52) *)

(** [type Remote struct { Name string; Url string }] *)
Record Remote := mkRemote { Name : string; Url : string }.

(** [type Repo struct]: the two remotes are pointers, [None] is the nil
    pointer the YAML decoder leaves when the key is absent. *)
Record Repo := mkRepo {
  RepoName : string;
  Path : string;
  SourceRemote : option Remote;
  TargetRemote : option Remote
}.

(** [type RepoSync struct]: Go ranges over the [Repos] map in an order of its
    own choosing; the list is that order.  [BranchMapping] is a
    [map[string]string]. *)
Record RepoSync := mkRepoSync {
  Repos : list Repo;
  BranchMapping : gmap string string
}.

(** ** Reference names (go-git, package plumbing) *)

(** A [plumbing.Reference] as the program observes it: [Name()] and [Hash()].
    Hashes are written as hexadecimal strings. *)
Record Reference := mkRef { RefName : string; RefHash : string }.

(** [stripPrefix p s] is [Some rest] when [s = p ++ rest]. *)
Fixpoint stripPrefix (p s : string) : option string :=
  match p with
  | EmptyString => Some s
  | String a p' =>
      match s with
      | EmptyString => None
      | String b s' => if Ascii.eqb a b then stripPrefix p' s' else None
      end
  end.

Definition HasPrefix (s p : string) : bool :=
  match stripPrefix p s with Some _ => true | None => false end.

(** [ReferenceName.IsBranch]: [strings.HasPrefix(string(r), "refs/heads/")]. *)
Definition IsBranch (n : string) : bool := HasPrefix n "refs/heads/".

(** [ReferenceName.Short]: go-git runs the name through its rev-parse rules
    [refs/%s], [refs/tags/%s], [refs/heads/%s], [refs/remotes/%s] in this
    order and keeps what the last rule that scans something has read; a rule
    scans only a non-empty rest.  (Names hold no white space.) *)
Definition shortRules : list string :=
  ["refs/"; "refs/tags/"; "refs/heads/"; "refs/remotes/"].

Definition Short (n : string) : string :=
  fold_left
    (fun res rule =>
       match stripPrefix rule n with
       | Some (String c rest) => String c rest
       | _ => res
       end)
    shortRules n.

(** ** mapBranch (main.go, lines 75-81) *)

Definition mapBranch (rs : RepoSync) (branchName : string) : string :=
  match BranchMapping rs !! branchName with
  | Some v => v
  | None => branchName
  end.

(** ** readInput (main.go, lines 55-72) *)

(** What [os.ReadFile] and [yaml.Unmarshal] answer: the value, or an error,
    known by its message. *)
Inductive Read (A : Type) :=
| Got (a : A)
| Failed (err : string).
Arguments Got {A} a.
Arguments Failed {A} err.

(** The [RepoSync] struct as the decoder fills it.  The values of [Repos]
    are pointers, each to a [Repo] of its own; a key with a null value holds
    the nil pointer. *)
Record Document := mkDocument {
  DocRepos : gmap string (option Repo);
  DocBranchMapping : gmap string string
}.

(** The file system and the YAML decoder.  [yaml.Unmarshal(in, &rs)] is
    handed the pointer [rs] and answers with what it leaves there: nil when
    the input holds no document. *)
Record InputLib := mkInputLib {
  os_ReadFile : string -> Read string;
  yaml_Unmarshal : string -> option Document -> Read (option Document)
}.

(** How [readInput] ends: it returns, or [log.Fatalf] prints a line and
    calls [os.Exit(1)], or a nil pointer is dereferenced. *)
Inductive Start (A : Type) :=
| Returns (a : A)
| Fatal (fmt : string) (args : list string)
| NilDereference.
Arguments Returns {A} a.
Arguments Fatal {A} fmt args.
Arguments NilDereference {A}.

(** [v.Name = k] *)
Definition setName (k : string) (v : Repo) : Repo :=
  mkRepo k (Path v) (SourceRemote v) (TargetRemote v).

(** Lines 67-69: [for k, v := range rs.Repos { v.Name = k }].  The write goes
    through the pointer [v]; through a nil pointer it panics. *)
Definition nameRepos (repos : gmap string (option Repo))
  : option (gmap string (option Repo)) :=
  map_fold
    (fun k v named =>
       match named, v with
       | Some m, Some r => Some (<[k := Some (setName k r)]> m)
       | _, _ => None
       end)
    (Some repos) repos.

(** The result is the pair of the Go function: the document and the
    error.  The statement after [log.Fatalf] at line 59 is never reached. *)
Definition readInput (lib : InputLib) (rs : option Document) (path : string)
  : Start (Document * option string) :=
  match os_ReadFile lib path with
  | Failed err => Fatal "failed to read Yaml file '%s': %v " [path; err]
  | Got yamlFile =>
      match yaml_Unmarshal lib yamlFile rs with
      | Failed err => Fatal "failed to unmarshal input: %v" [err]
      | Got None => NilDereference
      | Got (Some doc) =>
          match nameRepos (DocRepos doc) with
          | None => NilDereference
          | Some repos => Returns (mkDocument repos (DocBranchMapping doc), None)
          end
      end
  end.

(** ** The library interface *)

(** go-git errors.  The program compares errors with the one value
    [git.NoErrAlreadyUpToDate]; every other error is known by its message. *)
Inductive GitError :=
| NoErrAlreadyUpToDate
| OtherError (msg : string).

(** The Go pair [(value, err)] with exactly one side set. *)
Inductive Result (A : Type) :=
| Ok (a : A)
| Err (e : GitError).
Arguments Ok {A} a.
Arguments Err {A} e.

(** A Go [error] result: [None] is nil. *)
Definition error := option GitError.

(** [err != nil && err != git.NoErrAlreadyUpToDate] *)
Definition isFailure (err : error) : bool :=
  match err with
  | None => false
  | Some NoErrAlreadyUpToDate => false
  | Some (OtherError _) => true
  end.

(** [config.RemoteConfig] *)
Record RemoteConfig := mkRemoteConfig { CfgName : string; CfgURLs : list string }.

(** A [*git.Remote] is known by the repository it belongs to and its
    configuration. *)
Record GitRemote := mkGitRemote { RemoteRepo : string; Config : RemoteConfig }.

Definition TAB : string := String (ascii_of_nat 9) EmptyString.
Definition NL : string := String (ascii_of_nat 10) EmptyString.

(** [Remote.String()]: name and first and last URL, the way [git remote -v]
    prints them. *)
Definition Remote_String (r : GitRemote) : string :=
  let c := Config r in
  let fetch := List.hd "" (CfgURLs c) in
  let push := List.last (CfgURLs c) "" in
  CfgName c +:+ TAB +:+ fetch +:+ " (fetch)" +:+ NL +:+
  CfgName c +:+ TAB +:+ push +:+ " (push)".

Inductive TagMode := TagFollowing | AllTags | NoTags.
Inductive ResetMode := MixedReset | HardReset | MergeReset | SoftReset.

Record FetchOptions := mkFetchOptions { FetchRemoteName : string; FetchTags : TagMode }.

Record CheckoutOptions := mkCheckoutOptions {
  CoHash : string;
  CoBranch : string;
  CoCreate : bool;
  CoForce : bool;
  CoKeep : bool
}.

Record PullOptions := mkPullOptions {
  PullRemoteName : string;
  PullReferenceName : string;
  PullSingleBranch : bool;
  PullForce : bool
}.

Record ResetOptions := mkResetOptions { ResetCommit : string; ResetModeOf : ResetMode }.

Record PushOptions := mkPushOptions {
  PushRemoteName : string;
  PushRefSpecs : list string;
  PushForce : bool;
  PushAtomic : bool;
  PushFollowTags : bool
}.

(** [plumbing.ZeroHash], the hash of a [CheckoutOptions] that names no
    commit. *)
Definition ZeroHash : string := "0000000000000000000000000000000000000000".

(** Handles: a repository and its work tree are known by the path the
    repository was opened from. *)
Definition Repository := string.
Definition Worktree := string.

(** The library calls of [main.go], each with the type of its answer. *)
Inductive Call : Type -> Type :=
| git_PlainOpen (path : string) : Call (Result Repository)
| Repository_Remotes (repo : Repository) : Call (Result (list GitRemote))
| Repository_Remote (repo : Repository) (name : string) : Call (Result GitRemote)
| Repository_CreateRemote (repo : Repository) (c : RemoteConfig) : Call (Result GitRemote)
| Remote_Fetch (remote : GitRemote) (o : FetchOptions) : Call error
| Remote_List (remote : GitRemote) : Call (Result (list Reference))
| Repository_Worktree (repo : Repository) : Call (Result Worktree)
| Repository_Branches (repo : Repository) : Call (Result (list Reference))
| Worktree_Checkout (w : Worktree) (o : CheckoutOptions) : Call error
| Repository_Head (repo : Repository) : Call (Result Reference)
| Worktree_Pull (w : Worktree) (o : PullOptions) : Call error
| Worktree_Reset (w : Worktree) (o : ResetOptions) : Call error
| Repository_Push (repo : Repository) (o : PushOptions) : Call error
| Worktree_Status (w : Worktree) : Call (Result string)
| Repository_Tags (repo : Repository) : Call (Result (list Reference)).

(** A behaviour of the library over worlds [W]: every call answers and moves
    the world. *)
Definition GitLib (W : Type) : Type := forall A, Call A -> W -> A * W.

(** ** Traces *)

Inductive Level := InfoLevel | ErrorLevel.

(** What a log line is formatted from. *)
Inductive LogArg :=
| AStr (s : string)
| AErr (e : GitError)
| ARef (r : Reference)
| ARefs (l : list Reference).

Inductive Event :=
| EvLog (lvl : Level) (fmt : string) (args : list LogArg)
| EvCall {A : Type} (c : Call A) (answer : A).

(** ** The monad of the program

    A computation starts in a world and ends with an outcome, the world it
    left behind and the events it produced, oldest first. *)

Inductive Outcome (A : Type) :=
| Ret (a : A)          (* the statement ran to its end *)
| Exit (code : Z)      (* os.Exit(code) *)
| Panic.               (* a Go run-time panic: the process dies with status 2 *)
Arguments Ret {A} a.
Arguments Exit {A} code.
Arguments Panic {A}.

Definition M (W A : Type) : Type := W -> Outcome A * W * list Event.

Definition ret {W A} (a : A) : M W A := fun w => (Ret a, w, []).

Definition bind {W A B} (m : M W A) (k : A -> M W B) : M W B :=
  fun w =>
    match m w with
    | (Ret a, w1, t1) =>
        match k a w1 with
        | (o, w2, t2) => (o, w2, t1 ++ t2)
        end
    | (Exit c, w1, t1) => (Exit c, w1, t1)
    | (Panic, w1, t1) => (Panic, w1, t1)
    end.

Definition exit {W A} (code : Z) : M W A := fun w => (Exit code, w, []).
Definition panic {W A} : M W A := fun w => (Panic, w, []).

Definition logf {W} (lvl : Level) (fmt : string) (args : list LogArg) : M W unit :=
  fun w => (Ret tt, w, [EvLog lvl fmt args]).

Definition call {W A} (git : GitLib W) (c : Call A) : M W A :=
  fun w => match git A c w with (a, w') => (Ret a, w', [EvCall c a]) end.

(** Reading a field through a pointer: a nil pointer panics. *)
Definition deref {W A} (p : option A) : M W A :=
  match p with
  | Some a => ret a
  | None => panic
  end.

(** [for _, x := range xs { s = body(x, s) }]: a loop over a slice that
    carries the variables it updates. *)
Fixpoint foldEach {W X S} (body : X -> S -> M W S) (xs : list X) (s : S) : M W S :=
  match xs with
  | [] => ret s
  | x :: rest => bind (body x s) (fun s' => foldEach body rest s')
  end.

(** [for _, x := range xs { body(x) }] *)
Definition forEach {W X} (body : X -> M W unit) (xs : list X) : M W unit :=
  foldEach (fun x _ => body x) xs tt.

Declare Scope prog_scope.
Delimit Scope prog_scope with prog.
Notation "x <- m ;; k" := (bind m (fun x => k))
  (at level 100, m at next level, right associativity) : prog_scope.
Notation "m ;; k" := (bind m (fun _ => k))
  (at level 100, right associativity) : prog_scope.
Local Open Scope prog_scope.

(** How an error value is handed to a log line. *)
Definition errArg (err : error) : LogArg :=
  match err with
  | Some e => AErr e
  | None => AStr "<nil>"
  end.

(** ** The program *)

Section Program.

Context {W : Type} (git : GitLib W).

(** Go's [==] on strings. *)
Definition streq (a b : string) : bool := String.eqb a b.

(** [repoGetLocalBranchForRemote] (main.go, lines 85-116).  When
    [repo.Branches()] fails the error is logged and the iterator is nil, so
    the [ForEach] that follows panics.  The first pass fills
    [localBranches], which nothing reads; the second pass keeps the last
    branch whose name is the remote branch's name. *)
Definition foundLocalBranch (remoteBranch : Reference) (branches : list Reference)
  : option Reference :=
  fold_left
    (fun found localBranch =>
       if streq (RefName localBranch) (RefName remoteBranch)
       then Some localBranch else found)
    branches None.

Definition repoGetLocalBranchForRemote (repo : Repository) (remoteBranch : Reference)
  : M W (option Reference * error) :=
  r1 <- call git (Repository_Branches repo) ;;
  match r1 with
  | Err e => logf ErrorLevel "failed to get branches: %v" [AErr e] ;; panic
  | Ok branches =>
      let localBranches :=
        List.filter (fun r => IsBranch (RefName r) && HasPrefix (RefName r) "refs/heads/")
                    branches in
      r2 <- call git (Repository_Branches repo) ;;
      match r2 with
      | Err e => logf ErrorLevel "failed to get branches: %v" [AErr e] ;; panic
      | Ok branches2 => ret (foundLocalBranch remoteBranch branches2, None)
      end
  end.

(** Lines 139-147: add the target remote if the lookup fails.  What
    [CreateRemote] answers is dropped. *)
Definition provisionTarget (rs : Repo) (repo : Repository) : M W unit :=
  target <- deref (TargetRemote rs) ;;
  r <- call git (Repository_Remote repo (Name target)) ;;
  match r with
  | Err _ =>
      logf InfoLevel "Target remote %s missing for '%s' ... adding %s"
           [AStr (Name target); AStr (Path rs); AStr (Url target)] ;;
      _ <- call git (Repository_CreateRemote repo
                       (mkRemoteConfig (Name target) [Url target])) ;;
      ret tt
  | Ok _ => ret tt
  end.

(** Lines 170-175: keep the branches of a remote listing. *)
Definition collectBranch (rs : Repo) (remote : GitRemote) (r : Reference)
  (branchesToSync : list Reference) : M W (list Reference) :=
  if IsBranch (RefName r) then
    logf InfoLevel "Found remote branch '%s' for remote '%s' in repo '%s'."
         [AStr (RefName r); AStr (CfgName (Config remote)); AStr (Path rs)] ;;
    ret (branchesToSync ++ [r])
  else ret branchesToSync.

Definition collectBranches (rs : Repo) (remote : GitRemote) (remoteRefs : list Reference)
  (branchesToSync : list Reference) : M W (list Reference) :=
  foldEach (collectBranch rs remote) remoteRefs branchesToSync.

(** Lines 153-176: the body of the loop over the remotes. *)
Definition fetchRemote (rs : Repo) (remote : GitRemote) (branchesToSync : list Reference)
  : M W (list Reference) :=
  logf InfoLevel "Found remote '%s' in '%s' repo... fetching"
       [AStr (CfgName (Config remote)); AStr (Path rs)] ;;
  err <- call git (Remote_Fetch remote (mkFetchOptions (Remote_String remote) AllTags)) ;;
  if isFailure err then
    logf ErrorLevel "failed to fetch %s in '%s' repo: %v"
         [AStr (CfgName (Config remote)); AStr (Path rs); errArg err] ;;
    exit 1
  else
    source <- deref (SourceRemote rs) ;;
    if streq (CfgName (Config remote)) (Name source) then
      r <- call git (Remote_List remote) ;;
      match r with
      | Err e =>
          logf ErrorLevel "failed to get remote objects for remote '%s' in repo '%s': %v"
               [AStr (CfgName (Config remote)); AStr (Path rs); AErr e] ;;
          exit 1
      | Ok remoteRefs => collectBranches rs remote remoteRefs branchesToSync
      end
    else ret branchesToSync.

(** Lines 152-177: fetch everything. *)
Definition fetchEverything (rs : Repo) (remotes : list GitRemote)
  (branchesToSync : list Reference) : M W (list Reference) :=
  foldEach (fetchRemote rs) remotes branchesToSync.

(** Lines 193-228: the create path and the update path.  Both leave
    [localBranch] set: to [repo.Head()] after a create, to the branch that
    [repoGetLocalBranchForRemote] found otherwise. *)
Definition createLocal (rs : Repo) (repo : Repository) (w : Worktree)
  (remoteBranch : Reference) : M W Reference :=
  logf InfoLevel "Checking out branch %s in %s"
       [AStr (Short (RefName remoteBranch)); AStr (Path rs)] ;;
  err <- call git (Worktree_Checkout w
           (mkCheckoutOptions (RefHash remoteBranch) (RefName remoteBranch) true true false)) ;;
  match err with
  | Some e =>
      logf ErrorLevel "failed to checkout %s in %s: %v"
           [AStr (Short (RefName remoteBranch)); AStr (Path rs); AErr e] ;;
      exit 1
  | None =>
      h <- call git (Repository_Head repo) ;;
      match h with
      | Err e =>
          logf ErrorLevel "failed to get branch HEAD after checkout: %v" [AErr e] ;;
          exit 1
      | Ok localBranch =>
          if negb (streq (RefHash localBranch) (RefHash remoteBranch))
             || negb (streq (RefName localBranch) (RefName remoteBranch))
          then
            logf ErrorLevel "failed to check out branch correctly: %s vs %s; %s vs %s"
                 [AStr (RefHash localBranch); AStr (RefHash remoteBranch);
                  AStr (RefName localBranch); AStr (RefName remoteBranch)] ;;
            exit 1
          else ret localBranch
      end
  end.

Definition updateLocal (rs : Repo) (w : Worktree) (localBranch : Reference)
  : M W Reference :=
  logf InfoLevel "Switching to branch %s in %s"
       [AStr (Short (RefName localBranch)); AStr (Path rs)] ;;
  err <- call git (Worktree_Checkout w
           (mkCheckoutOptions ZeroHash (RefName localBranch) false true false)) ;;
  match err with
  | Some e =>
      logf ErrorLevel "failed to switch to %s in %s: %v"
           [AStr (Short (RefName localBranch)); AStr (Path rs); AErr e] ;;
      exit 1
  | None => ret localBranch
  end.

(** Lines 230-250: pull the branch from the source remote, then reset hard
    to the hash [localBranch] holds. *)
Definition pullAndReset (rs : Repo) (w : Worktree) (localBranch remoteBranch : Reference)
  : M W unit :=
  source <- deref (SourceRemote rs) ;;
  logf InfoLevel "Pulling %s from '%s' of %s"
       [AStr (Short (RefName remoteBranch)); AStr (Name source); AStr (Path rs)] ;;
  err <- call git (Worktree_Pull w
           (mkPullOptions (Name source) (RefName remoteBranch) true true)) ;;
  if isFailure err then
    logf ErrorLevel "failed to pull %s in %s: %v"
         [AStr (Short (RefName remoteBranch)); AStr (Path rs); errArg err] ;;
    exit 1
  else
    logf InfoLevel "Reseting branch %s to %s"
         [AStr (Short (RefName localBranch)); AStr (RefHash localBranch)] ;;
    err <- call git (Worktree_Reset w (mkResetOptions (RefHash localBranch) HardReset)) ;;
    match err with
    | Some e =>
        logf ErrorLevel "failed to reset branch %s in %s: %v"
             [AStr (Short (RefName remoteBranch)); AStr (Path rs); AErr e] ;;
        exit 1
    | None => ret tt
    end.

(** Lines 181-250: everything the loop body does before the push. *)
Definition reconcileLocal (rs : Repo) (repo : Repository) (remoteBranch : Reference)
  : M W (Worktree * Reference) :=
  rw <- call git (Repository_Worktree repo) ;;
  match rw with
  | Err e =>
      logf ErrorLevel "failed to get working tree for repository %s: %v"
           [AStr (Path rs); AErr e] ;;
      exit 1
  | Ok w =>
      found <- repoGetLocalBranchForRemote repo remoteBranch ;;
      match snd found with
      | Some _ =>
          logf ErrorLevel
               "failed to determine whether repo %v already had local copy of branch %s in %s"
               [AStr repo; ARef remoteBranch; AStr (Path rs)] ;;
          exit 1
      | None =>
          localBranch <-
            match fst found with
            | None => createLocal rs repo w remoteBranch
            | Some localBranch => updateLocal rs w localBranch
            end ;;
          pullAndReset rs w localBranch remoteBranch ;;
          ret (w, localBranch)
      end
  end.

(** Line 252: the ref-spec of a branch push. *)
Definition requiredRefSpecStr (repoSync : RepoSync) (localBranch remoteBranch : Reference)
  : string :=
  "+" +:+ RefName localBranch +:+ ":refs/heads/" +:+
  mapBranch repoSync (Short (RefName remoteBranch)).

(** Lines 252-290: push the branch, then read the status of the work tree. *)
Definition pushBranch (repoSync : RepoSync) (rs : Repo) (repo : Repository) (w : Worktree)
  (localBranch remoteBranch : Reference) : M W unit :=
  let refSpec := requiredRefSpecStr repoSync localBranch remoteBranch in
  logf InfoLevel "Pushing %s" [AStr refSpec] ;;
  target <- deref (TargetRemote rs) ;;
  err <- call git (Repository_Push repo
           (mkPushOptions (Name target) [refSpec] true true false)) ;;
  match err with
  | Some NoErrAlreadyUpToDate => logf InfoLevel "remote up to date - %s" [AStr refSpec]
  | Some e => logf ErrorLevel "failed to push %s: %v" [AStr refSpec; AErr e] ;; exit 1
  | None => ret tt
  end ;;
  st <- call git (Worktree_Status w) ;;
  match st with
  | Err e => logf ErrorLevel "failed to get repo status: %v" [AErr e] ;; exit 1
  | Ok status => logf InfoLevel "Repository status: %v" [AStr status]
  end.

(** Lines 180-292: the body of the loop over [branchesToSync], and the loop. *)
Definition syncBranch (repoSync : RepoSync) (rs : Repo) (repo : Repository)
  (remoteBranch : Reference) : M W unit :=
  wl <- reconcileLocal rs repo remoteBranch ;;
  pushBranch repoSync rs repo (fst wl) (snd wl) remoteBranch.

Definition syncBranches (repoSync : RepoSync) (rs : Repo) (repo : Repository)
  (branchesToSync : list Reference) : M W unit :=
  forEach (syncBranch repoSync rs repo) branchesToSync.

(** Lines 300-319: push one tag under its own name. *)
Definition tagsRefSpec (t : Reference) : string :=
  "+refs/tags/" +:+ Short (RefName t) +:+ ":refs/tags/" +:+ Short (RefName t).

Definition pushTag (rs : Repo) (repo : Repository) (t : Reference) : M W unit :=
  target <- deref (TargetRemote rs) ;;
  logf InfoLevel "Pushing tag %s to %s with refspec %s"
       [AStr (Short (RefName t)); AStr (Name target); AStr (tagsRefSpec t)] ;;
  err <- call git (Repository_Push repo
           (mkPushOptions (Name target) [tagsRefSpec t] true false true)) ;;
  match err with
  | Some NoErrAlreadyUpToDate =>
      logf InfoLevel "tag %s already up to date" [AStr (Short (RefName t))]
  | Some e => logf ErrorLevel "failed to push tags: %v" [AErr e] ;; exit 1
  | None => ret tt
  end.

Definition pushEachTag (rs : Repo) (repo : Repository) (tags : list Reference) : M W unit :=
  forEach (pushTag rs repo) tags.

(** Lines 294-320: push all tags. *)
Definition pushTags (rs : Repo) (repo : Repository) : M W unit :=
  r <- call git (Repository_Tags repo) ;;
  match r with
  | Err e => logf ErrorLevel "failed to get tags: %v" [AErr e] ;; exit 1
  | Ok tags => pushEachTag rs repo tags
  end.

(** Lines 126-320: one repository. *)
Definition syncRepo (repoSync : RepoSync) (rs : Repo) : M W unit :=
  logf InfoLevel "Opening %s..." [AStr (Path rs)] ;;
  ro <- call git (git_PlainOpen (Path rs)) ;;
  match ro with
  | Err e =>
      logf ErrorLevel "failed to open repo from %s: %v" [AStr (Path rs); AErr e] ;;
      exit 1
  | Ok repo =>
      rr <- call git (Repository_Remotes repo) ;;
      match rr with
      | Err e =>
          logf ErrorLevel "failed to get remotes for %s: %v" [AStr (Path rs); AErr e] ;;
          exit 1
      | Ok remotes =>
          provisionTarget rs repo ;;
          branchesToSync <- fetchEverything rs remotes [] ;;
          logf InfoLevel "Branches to sync: %v" [ARefs branchesToSync] ;;
          syncBranches repoSync rs repo branchesToSync ;;
          pushTags rs repo
      end
  end.

(** Lines 125-321: the loop of [main] over the repositories of the input.
    The input file is taken as read: [repoSync] is what [readInput]
    returned. *)
Definition main (repoSync : RepoSync) : M W unit :=
  forEach (syncRepo repoSync) (Repos repoSync).

End Program.

(** ** A reference semantics of the library calls

    Repositories are reference tables: local branches, tags, the branch
    [HEAD] names, and for each configured remote what the last fetch saw.
    The repository at the other end of a remote lives in [servers], keyed by
    URL.  There is no object store and no commit graph: a pull moves the
    current branch to the fetched hash, a push overwrites the reference on
    the server. *)

Module RefGit.

Record RemoteState := mkRemoteState {
  rsConfig : RemoteConfig;
  rsFetched : list Reference
}.

Record RepoState := mkRepoState {
  rpRemotes : list RemoteState;
  rpHeads : list Reference;
  rpTags : list Reference;
  rpHEAD : string
}.

Record World := mkWorld {
  repos : list (string * RepoState);
  servers : list (string * list Reference)
}.

Definition assoc {A} (k : string) (l : list (string * A)) : option A :=
  match List.find (fun kv => String.eqb (fst kv) k) l with
  | Some kv => Some (snd kv)
  | None => None
  end.

Fixpoint assocSet {A} (k : string) (v : A) (l : list (string * A)) : list (string * A) :=
  match l with
  | [] => [(k, v)]
  | (k', v') :: rest =>
      if String.eqb k' k then (k, v) :: rest else (k', v') :: assocSet k v rest
  end.

Definition refHash (n : string) (refs : list Reference) : option string :=
  match List.find (fun r => String.eqb (RefName r) n) refs with
  | Some r => Some (RefHash r)
  | None => None
  end.

Fixpoint setRef (n h : string) (refs : list Reference) : list Reference :=
  match refs with
  | [] => [mkRef n h]
  | r :: rest =>
      if String.eqb (RefName r) n then mkRef n h :: rest else r :: setRef n h rest
  end.

Definition refEqb (a b : Reference) : bool :=
  String.eqb (RefName a) (RefName b) && String.eqb (RefHash a) (RefHash b).

Fixpoint refsEqb (a b : list Reference) : bool :=
  match a, b with
  | [], [] => true
  | x :: a', y :: b' => refEqb x y && refsEqb a' b'
  | _, _ => false
  end.

Definition findRemote (name : string) (rp : RepoState) : option RemoteState :=
  List.find (fun r => String.eqb (CfgName (rsConfig r)) name) (rpRemotes rp).

Definition setFetched (name : string) (refs : list Reference) (rp : RepoState) : RepoState :=
  mkRepoState
    (List.map (fun r => if String.eqb (CfgName (rsConfig r)) name
                        then mkRemoteState (rsConfig r) refs else r)
              (rpRemotes rp))
    (rpHeads rp) (rpTags rp) (rpHEAD rp).

(** Tags that a fetch with [AllTags] brings in: those not yet known here. *)
Definition newTags (remoteRefs localTags : list Reference) : list Reference :=
  List.filter
    (fun r => HasPrefix (RefName r) "refs/tags/"
              && match refHash (RefName r) localTags with Some _ => false | None => true end)
    remoteRefs.

Definition setRepo (path : string) (rp : RepoState) (w : World) : World :=
  mkWorld (assocSet path rp (repos w)) (servers w).

Definition serverOf (c : RemoteConfig) (w : World) : option (list Reference) :=
  assoc (List.hd "" (CfgURLs c)) (servers w).

Definition notFound {A} (what : string) : Result A := Err (OtherError (what +:+ " not found")).

(** [PullOptions.Validate] and [PushOptions.Validate] read an empty remote
    name as [origin]. *)
Definition orOrigin (name : string) : string :=
  if String.eqb name "" then "origin" else name.

(** [+src:dst] *)
Fixpoint splitColon (s : string) : option (string * string) :=
  match s with
  | EmptyString => None
  | String c rest =>
      if Ascii.eqb c ":"%char then Some (EmptyString, rest)
      else match splitColon rest with
           | Some (a, b) => Some (String c a, b)
           | None => None
           end
  end.

Definition parseRefSpec (s : string) : option (string * string) :=
  match stripPrefix "+" s with
  | Some rest => splitColon rest
  | None => splitColon s
  end.

Definition fetchInto (name : string) (c : RemoteConfig) (rp : RepoState) (w : World)
  : option (list Reference * RepoState) :=
  match serverOf c w with
  | None => None
  | Some refs =>
      let rp1 := setFetched name refs rp in
      Some (refs, mkRepoState (rpRemotes rp1) (rpHeads rp1)
                              (rpTags rp1 ++ newTags refs (rpTags rp1)) (rpHEAD rp1))
  end.

Definition run (A : Type) (c : Call A) (w : World) : A * World :=
  match c in Call T return T * World with
  (* opens the repository at [path], if there is one *)
  | git_PlainOpen path =>
      match assoc path (repos w) with
      | Some _ => (Ok path, w)
      | None => (Err (OtherError "repository does not exist"), w)
      end
  (* the remotes of the configuration *)
  | Repository_Remotes repo =>
      match assoc repo (repos w) with
      | Some rp => (Ok (List.map (fun r => mkGitRemote repo (rsConfig r)) (rpRemotes rp)), w)
      | None => (notFound "repository", w)
      end
  (* the remote of that name, or the error that there is none *)
  | Repository_Remote repo name =>
      match assoc repo (repos w) with
      | Some rp =>
          match findRemote name rp with
          | Some r => (Ok (mkGitRemote repo (rsConfig r)), w)
          | None => (notFound "remote", w)
          end
      | None => (notFound "repository", w)
      end
  (* validates the configuration (a name, a URL), refuses a name that is
     taken, and stores the remote; nothing has been fetched from it *)
  | Repository_CreateRemote repo c =>
      match assoc repo (repos w) with
      | Some rp =>
          if String.eqb (CfgName c) "" then (Err (OtherError "remote config: empty name"), w)
          else match CfgURLs c with
               | [] => (Err (OtherError "remote config: empty URL"), w)
               | _ =>
                   match findRemote (CfgName c) rp with
                   | Some _ => (Err (OtherError "remote already exists"), w)
                   | None =>
                       (Ok (mkGitRemote repo c),
                        setRepo repo
                          (mkRepoState (rpRemotes rp ++ [mkRemoteState c []])
                                       (rpHeads rp) (rpTags rp) (rpHEAD rp)) w)
                   end
               end
      | None => (notFound "repository", w)
      end
  (* reads the references of the server and the tags not yet known here;
     already up to date when the references are those of the last fetch *)
  | Remote_Fetch remote o =>
      match assoc (RemoteRepo remote) (repos w) with
      | Some rp =>
          match findRemote (CfgName (Config remote)) rp with
          | Some r =>
              match fetchInto (CfgName (Config remote)) (rsConfig r) rp w with
              | Some (refs, rp') =>
                  if refsEqb refs (rsFetched r) then (Some NoErrAlreadyUpToDate, w)
                  else (None, setRepo (RemoteRepo remote) rp' w)
              | None => (Some (OtherError "repository not found"), w)
              end
          | None => (Some (OtherError "remote not found"), w)
          end
      | None => (Some (OtherError "repository not found"), w)
      end
  (* the references the server advertises *)
  | Remote_List remote =>
      match serverOf (Config remote) w with
      | Some refs => (Ok refs, w)
      | None => (notFound "repository", w)
      end
  | Repository_Worktree repo =>
      match assoc repo (repos w) with
      | Some _ => (Ok repo, w)
      | None => (notFound "repository", w)
      end
  | Repository_Branches repo =>
      match assoc repo (repos w) with
      | Some rp => (Ok (rpHeads rp), w)
      | None => (notFound "repository", w)
      end
  (* with [Create]: a new branch at the hash, which must not exist, and
     [HEAD] on it; without: [HEAD] on the branch, which must exist *)
  | Worktree_Checkout wt o =>
      match assoc wt (repos w) with
      | Some rp =>
          if CoCreate o then
            match refHash (CoBranch o) (rpHeads rp) with
            | Some _ => (Some (OtherError "a branch with this name already exists"), w)
            | None =>
                (None, setRepo wt
                         (mkRepoState (rpRemotes rp) (rpHeads rp ++ [mkRef (CoBranch o) (CoHash o)])
                                      (rpTags rp) (CoBranch o)) w)
            end
          else
            match refHash (CoBranch o) (rpHeads rp) with
            | Some _ =>
                (None, setRepo wt
                         (mkRepoState (rpRemotes rp) (rpHeads rp) (rpTags rp) (CoBranch o)) w)
            | None => (Some (OtherError "reference not found"), w)
            end
      | None => (Some (OtherError "repository not found"), w)
      end
  (* the branch [HEAD] names, with its hash *)
  | Repository_Head repo =>
      match assoc repo (repos w) with
      | Some rp =>
          match refHash (rpHEAD rp) (rpHeads rp) with
          | Some h => (Ok (mkRef (rpHEAD rp) h), w)
          | None => (notFound "reference", w)
          end
      | None => (notFound "repository", w)
      end
  (* fetches, then moves the current branch to the hash the server has for
     the reference; already up to date when the branch is there *)
  | Worktree_Pull wt o =>
      match assoc wt (repos w) with
      | Some rp =>
          match findRemote (orOrigin (PullRemoteName o)) rp with
          | Some r =>
              match fetchInto (orOrigin (PullRemoteName o)) (rsConfig r) rp w with
              | Some (refs, rp') =>
                  match refHash (PullReferenceName o) refs with
                  | Some h =>
                      match refHash (rpHEAD rp') (rpHeads rp') with
                      | Some cur =>
                          if String.eqb cur h then (Some NoErrAlreadyUpToDate, setRepo wt rp' w)
                          else (None, setRepo wt
                                        (mkRepoState (rpRemotes rp')
                                                     (setRef (rpHEAD rp') h (rpHeads rp'))
                                                     (rpTags rp') (rpHEAD rp')) w)
                      | None => (Some (OtherError "reference not found"), w)
                      end
                  | None => (Some (OtherError "reference not found"), w)
                  end
              | None => (Some (OtherError "repository not found"), w)
              end
          | None => (Some (OtherError "remote not found"), w)
          end
      | None => (Some (OtherError "repository not found"), w)
      end
  (* moves the current branch to the commit *)
  | Worktree_Reset wt o =>
      match assoc wt (repos w) with
      | Some rp =>
          match refHash (rpHEAD rp) (rpHeads rp) with
          | Some _ =>
              (None, setRepo wt
                       (mkRepoState (rpRemotes rp)
                                    (setRef (rpHEAD rp) (ResetCommit o) (rpHeads rp))
                                    (rpTags rp) (rpHEAD rp)) w)
          | None => (Some (OtherError "reference not found"), w)
          end
      | None => (Some (OtherError "repository not found"), w)
      end
  (* one ref-spec [+src:dst]: writes the hash of the local [src] to [dst] on
     the server; already up to date when it is there or [src] is unknown *)
  | Repository_Push repo o =>
      match assoc repo (repos w) with
      | Some rp =>
          match findRemote (orOrigin (PushRemoteName o)) rp with
          | Some r =>
              let url := List.hd "" (CfgURLs (rsConfig r)) in
              match assoc url (servers w) with
              | Some refs =>
                  match PushRefSpecs o with
                  | [spec] =>
                      match parseRefSpec spec with
                      | Some (src, dst) =>
                          match refHash src (rpHeads rp ++ rpTags rp) with
                          | Some h =>
                              if match refHash dst refs with
                                 | Some h' => String.eqb h h'
                                 | None => false
                                 end
                              then (Some NoErrAlreadyUpToDate, w)
                              else (None, mkWorld (repos w)
                                                  (assocSet url (setRef dst h refs) (servers w)))
                          | None => (Some NoErrAlreadyUpToDate, w)
                          end
                      | None => (Some (OtherError "malformed refspec"), w)
                      end
                  | _ => (Some (OtherError "unsupported refspecs"), w)
                  end
              | None => (Some (OtherError "repository not found"), w)
              end
          | None => (Some (OtherError "remote not found"), w)
          end
      | None => (Some (OtherError "repository not found"), w)
      end
  | Worktree_Status wt =>
      match assoc wt (repos w) with
      | Some _ => (Ok "", w)
      | None => (notFound "repository", w)
      end
  | Repository_Tags repo =>
      match assoc repo (repos w) with
      | Some rp => (Ok (rpTags rp), w)
      | None => (notFound "repository", w)
      end
  end.

Definition lib : GitLib World := run.

End RefGit.

(** ** Concrete repositories

    The repository of the README: [local/repos/foo] with the source remote
    [origin] and the target remote [github], mapping [master] to [main]. *)

Module Examples.

Import RefGit.

Definition originURL : string := "https://example.org/src/foo.git".
Definition githubURL : string := "git@github.com:bar/foo.git".
Definition fooPath : string := "local/repos/foo".

Definition origin : RemoteConfig := mkRemoteConfig "origin" [originURL].
Definition github : RemoteConfig := mkRemoteConfig "github" [githubURL].

Definition foo : Repo :=
  mkRepo "foo" fooPath (Some (mkRemote "origin" "")) (Some (mkRemote "github" githubURL)).

Definition readme : RepoSync := mkRepoSync [foo] {[ "master" := "main" ]}.

Definition master (h : string) : Reference := mkRef "refs/heads/master" h.
Definition develop (h : string) : Reference := mkRef "refs/heads/develop" h.
Definition v1 : Reference := mkRef "refs/tags/v1" "abc123".

(** What the source server advertises: [HEAD], two branches and a tag. *)
Definition advertised : list Reference :=
  [mkRef "HEAD" "abc123"; master "abc123"; develop "def456"; v1].

(** A fresh clone without local branches; the target remote is not
    configured yet. *)
Definition fresh : World :=
  mkWorld
    [(fooPath, mkRepoState [mkRemoteState origin []] [] [] "refs/heads/master")]
    [(originURL, advertised); (githubURL, [])].

(** The same repository with a local [master] that is one commit behind the
    source, and both remotes configured. *)
Definition behind : World :=
  mkWorld
    [(fooPath,
      mkRepoState [mkRemoteState origin []; mkRemoteState github []]
                  [master "0ld000"] [v1] "refs/heads/master")]
    [(originURL, [mkRef "HEAD" "abc123"; master "abc123"]); (githubURL, [])].

(** The clone with the target remote configured as well. *)
Definition cloned : World :=
  mkWorld
    [(fooPath,
      mkRepoState [mkRemoteState origin []; mkRemoteState github []]
                  [] [] "refs/heads/master")]
    [(originURL, advertised); (githubURL, [])].

(** A configuration whose target remote has no name: the lookup fails and
    so does the creation. *)
Definition nameless : Repo :=
  mkRepo "foo" fooPath (Some (mkRemote "origin" "")) (Some (mkRemote "" githubURL)).

(** The run of the program over the fresh clone, and the clone after it. *)
Definition readmeRun : Outcome unit * World * list Event :=
  Eval vm_compute in main RefGit.lib readme fresh.

Definition synced : World := snd (fst readmeRun).

(** A library whose [repo.Head()] names [HEAD] itself instead of the branch
    it points to; everything else is [RefGit]. *)
Definition detachedHead : GitLib World :=
  fun A c w =>
    match c in Call T return T * World -> T * World with
    | Repository_Head _ =>
        fun r => match fst r with
                 | Ok h => (Ok (mkRef "HEAD" (RefHash h)), snd r)
                 | Err e => (Err e, snd r)
                 end
    | _ => fun r => r
    end (RefGit.run A c w).

(** A repository without remotes, branches and tags. *)
Definition bare : World :=
  mkWorld [(fooPath, mkRepoState [] [] [] "refs/heads/master")] [].

End Examples.

(** ** Input files and configurations at the edges *)

Module Inputs.

Definition readmeYaml : string :=
  "{repos: {foo: {path: local/repos/foo, sourceRemote: {name: origin}, targetRemote: {name: github, url: 'git@github.com:bar/foo.git'}}}, branchMapping: {master: main}}".

(** The document of the README as decoded: the repository has no name
    yet. *)
Definition readmeDocument : Document :=
  mkDocument
    {[ "foo" := Some (mkRepo "" Examples.fooPath (Some (mkRemote "origin" ""))
                             (Some (mkRemote "github" Examples.githubURL))) ]}
    {[ "master" := "main" ]}.

(** A disk with one input file, and a decoder that knows its text. *)
Definition disk : InputLib :=
  mkInputLib
    (fun path =>
       if String.eqb path "sync.yaml" then Got readmeYaml
       else Failed "no such file or directory")
    (fun yamlFile rs =>
       if String.eqb yamlFile readmeYaml then Got (Some readmeDocument)
       else if String.eqb yamlFile "" then Got rs
       else Failed "yaml: did not find expected node content").

End Inputs.

Module Edge.

Import RefGit.

(** The repository of the README without its [targetRemote] key, and
    without its [sourceRemote] key. *)
Definition targetless : Repo :=
  mkRepo "foo" Examples.fooPath (Some (mkRemote "origin" "")) None.

Definition sourceless : Repo :=
  mkRepo "foo" Examples.fooPath None (Some (mkRemote "github" Examples.githubURL)).

(** A repository with one tag and no remote configured. *)
Definition tagged : World :=
  mkWorld [(Examples.fooPath, mkRepoState [] [] [Examples.v1] "refs/heads/master")]
          [(Examples.githubURL, [])].

(** A disk without repositories. *)
Definition nowhere : World := mkWorld [] [].

(** A library whose [repo.Branches()] fails; everything else is [RefGit]. *)
Definition unreadableBranches : GitLib World :=
  fun A c w =>
    match c in Call T return T * World -> T * World with
    | Repository_Branches _ =>
        fun r => (Err (OtherError "permission denied"), snd r)
    | _ => fun r => r
    end (RefGit.run A c w).

Definition unreadableRun : Outcome unit * World * list Event :=
  Eval vm_compute in main unreadableBranches Examples.readme Examples.cloned.

End Edge.

(** ** Observations on traces *)

(** The answers a function picks out of a list, in order. *)
Fixpoint pick {A B} (f : A -> option B) (l : list A) : list B :=
  match l with
  | [] => []
  | x :: rest =>
      match f x with
      | Some b => b :: pick f rest
      | None => pick f rest
      end
  end.

Definition checkoutOf (e : Event) : option CheckoutOptions :=
  match e with
  | EvCall c _ => match c with Worktree_Checkout _ o => Some o | _ => None end
  | EvLog _ _ _ => None
  end.

Definition pullOf (e : Event) : option PullOptions :=
  match e with
  | EvCall c _ => match c with Worktree_Pull _ o => Some o | _ => None end
  | EvLog _ _ _ => None
  end.

Definition resetOf (e : Event) : option ResetOptions :=
  match e with
  | EvCall c _ => match c with Worktree_Reset _ o => Some o | _ => None end
  | EvLog _ _ _ => None
  end.

Definition pushOf (e : Event) : option PushOptions :=
  match e with
  | EvCall c _ => match c with Repository_Push _ o => Some o | _ => None end
  | EvLog _ _ _ => None
  end.

Definition checkouts (tr : list Event) : list CheckoutOptions := pick checkoutOf tr.
Definition pulls (tr : list Event) : list PullOptions := pick pullOf tr.
Definition resets (tr : list Event) : list ResetOptions := pick resetOf tr.
Definition pushes (tr : list Event) : list PushOptions := pick pushOf tr.

(** The push of a branch, as line 259 builds it. *)
Definition branchPush (target : Remote) (refSpec : string) : PushOptions :=
  mkPushOptions (Name target) [refSpec] true true false.

(** The push of a tag, as line 303 builds it. *)
Definition tagPush (target : Remote) (t : Reference) : PushOptions :=
  mkPushOptions (Name target) [tagsRefSpec t] true false true.

(** The local branch listings a run has read, in order. *)
Definition listingOf (e : Event) : option (list Reference) :=
  match e with
  | EvCall c a =>
      match c in Call T return T -> option (list Reference) with
      | Repository_Branches _ =>
          fun a => match a with Ok l => Some l | Err _ => None end
      | _ => fun _ => None
      end a
  | EvLog _ _ _ => None
  end.

Definition listings (tr : list Event) : list (list Reference) := pick listingOf tr.

(** What [repo.Head()] answered. *)
Definition headOf (e : Event) : option Reference :=
  match e with
  | EvCall c a =>
      match c in Call T return T -> option Reference with
      | Repository_Head _ =>
          fun a => match a with Ok h => Some h | Err _ => None end
      | _ => fun _ => None
      end a
  | EvLog _ _ _ => None
  end.

Definition headsRead (tr : list Event) : list Reference := pick headOf tr.

(** The calls that change the work tree or a remote, in the order made. *)
Inductive Step :=
| StepCheckout (o : CheckoutOptions)
| StepPull (o : PullOptions)
| StepReset (o : ResetOptions)
| StepPush (o : PushOptions).

Definition stepOf (e : Event) : option Step :=
  match e with
  | EvCall c _ =>
      match c with
      | Worktree_Checkout _ o => Some (StepCheckout o)
      | Worktree_Pull _ o => Some (StepPull o)
      | Worktree_Reset _ o => Some (StepReset o)
      | Repository_Push _ o => Some (StepPush o)
      | _ => None
      end
  | EvLog _ _ _ => None
  end.

Definition steps (tr : list Event) : list Step := pick stepOf tr.

(** The last event of a trace is an error line. *)
Definition endsWithErrorLog (tr : list Event) : Prop :=
  exists pre fmt args, tr = pre ++ [EvLog ErrorLevel fmt args].

(** *** The fetch loop *)

Definition fetchOf (e : Event) : option (GitRemote * FetchOptions) :=
  match e with
  | EvCall c _ => match c with Remote_Fetch r o => Some (r, o) | _ => None end
  | EvLog _ _ _ => None
  end.

Definition fetches (tr : list Event) : list (GitRemote * FetchOptions) := pick fetchOf tr.

(** A fetch with its answer. *)
Definition fetchAnswerOf (e : Event) : option (GitRemote * error) :=
  match e with
  | EvCall c a =>
      match c in Call T return T -> option (GitRemote * error) with
      | Remote_Fetch r _ => fun a => Some (r, a)
      | _ => fun _ => None
      end a
  | EvLog _ _ _ => None
  end.

(** The remote of a [remote.List] call. *)
Definition listCallOf (e : Event) : option GitRemote :=
  match e with
  | EvCall c _ => match c with Remote_List r => Some r | _ => None end
  | EvLog _ _ _ => None
  end.

Definition listCalls (tr : list Event) : list GitRemote := pick listCallOf tr.

(** A [remote.List] call that answered, with the references it advertised. *)
Definition remoteListingOf (e : Event) : option (GitRemote * list Reference) :=
  match e with
  | EvCall c a =>
      match c in Call T return T -> option (GitRemote * list Reference) with
      | Remote_List r =>
          fun a => match a with Ok refs => Some (r, refs) | Err _ => None end
      | _ => fun _ => None
      end a
  | EvLog _ _ _ => None
  end.

Definition remoteListings (tr : list Event) : list (GitRemote * list Reference) :=
  pick remoteListingOf tr.

Definition branchesOf (refs : list Reference) : list Reference :=
  List.filter (fun r => IsBranch (RefName r)) refs.

(** The branches the remote listings of a run advertise, in order. *)
Definition advertisedBranches (tr : list Event) : list Reference :=
  flat_map (fun l => branchesOf (snd l)) (remoteListings tr).

Definition isSource (source : Remote) (remote : GitRemote) : bool :=
  streq (CfgName (Config remote)) (Name source).

(** Every [remote.List] call of the trace comes right after a fetch of the
    same remote that did not fail; [prev] is the fetch just before the
    trace, if the event before it was one. *)
Fixpoint listedAfterFetch (prev : option (GitRemote * error)) (tr : list Event) : Prop :=
  match tr with
  | [] => True
  | e :: rest =>
      match listCallOf e with
      | Some remote => exists err, prev = Some (remote, err) /\ isFailure err = false
      | None => True
      end
      /\ listedAfterFetch (fetchAnswerOf e) rest
  end.

(** The statement that the listing is a snapshot taken before any fetch: no
    fetch comes before a [remote.List] call. *)
Definition listedBeforeAnyFetch (tr : list Event) : Prop :=
  forall pre remote answer post,
    tr = pre ++ EvCall (Remote_List remote) answer :: post ->
    fetches pre = [].

(** *** Tags and remotes read *)

Definition tagsOf (e : Event) : option (list Reference) :=
  match e with
  | EvCall c a =>
      match c in Call T return T -> option (list Reference) with
      | Repository_Tags _ =>
          fun a => match a with Ok l => Some l | Err _ => None end
      | _ => fun _ => None
      end a
  | EvLog _ _ _ => None
  end.

Definition tagsRead (tr : list Event) : list (list Reference) := pick tagsOf tr.

Definition remotesOf (e : Event) : option (list GitRemote) :=
  match e with
  | EvCall c a =>
      match c in Call T return T -> option (list GitRemote) with
      | Repository_Remotes _ =>
          fun a => match a with Ok l => Some l | Err _ => None end
      | _ => fun _ => None
      end a
  | EvLog _ _ _ => None
  end.

Definition remotesRead (tr : list Event) : list (list GitRemote) := pick remotesOf tr.

(** *** The plan of the reconciler

    The specification describes a run as a plan: for every remote branch a
    create or an update of the local branch followed by the push of the
    branch, and after all branches one push per tag.  [branchSteps] spells
    the library calls of one branch: [None] is the create, [Some h] the
    update of a local branch found at hash [h]. *)

Definition createCheckout (r : Reference) : CheckoutOptions :=
  mkCheckoutOptions (RefHash r) (RefName r) true true false.

Definition updateCheckout (name : string) : CheckoutOptions :=
  mkCheckoutOptions ZeroHash name false true false.

Definition branchSteps (repoSync : RepoSync) (source target : Remote) (r : Reference)
  (localHash : option string) : list Step :=
  [StepCheckout (match localHash with
                 | None => createCheckout r
                 | Some _ => updateCheckout (RefName r)
                 end);
   StepPull (mkPullOptions (Name source) (RefName r) true true);
   StepReset (mkResetOptions (match localHash with
                              | None => RefHash r
                              | Some h => h
                              end) HardReset);
   StepPush (branchPush target
               ("+" +:+ RefName r +:+ ":refs/heads/" +:+
                mapBranch repoSync (Short (RefName r))))].

Definition plan (repoSync : RepoSync) (source target : Remote)
  (branches : list (Reference * option string)) (tags : list Reference) : list Step :=
  flat_map (fun b => branchSteps repoSync source target (fst b) (snd b)) branches
  ++ List.map (fun t => StepPush (tagPush target t)) tags.

(** *** Local branches that the run itself created

    [createdBy created tr] follows the trace and collects the names of the
    branches that a successful create checkout has made; it gives up when a
    branch listing reports a branch that is not among them.  A run on a
    repository without local branches never makes it give up. *)

Definition inb (name : string) (names : list string) : bool :=
  existsb (String.eqb name) names.

Definition createdStep (created : list string) (e : Event) : option (list string) :=
  match e with
  | EvCall c a =>
      match c in Call T return T -> option (list string) with
      | Repository_Branches _ =>
          fun a =>
            match a with
            | Ok l => if forallb (fun r => inb (RefName r) created) l
                      then Some created else None
            | Err _ => Some created
            end
      | Worktree_Checkout _ o =>
          fun a =>
            match a with
            | None => Some (if CoCreate o then CoBranch o :: created else created)
            | Some _ => Some created
            end
      | _ => fun _ => Some created
      end a
  | EvLog _ _ _ => Some created
  end.

Fixpoint createdBy (created : list string) (tr : list Event) : option (list string) :=
  match tr with
  | [] => Some created
  | e :: rest =>
      match createdStep created e with
      | Some created' => createdBy created' rest
      | None => None
      end
  end.

(** *** Calls the run stops on *)

Inductive Ending := Returned | Exited (code : Z) | Panicked.

Definition ending {A} (o : Outcome A) : Ending :=
  match o with
  | Ret _ => Returned
  | Exit c => Exited c
  | Panic => Panicked
  end.

Definition isErr {A} (r : Result A) : bool :=
  match r with Ok _ => false | Err _ => true end.

Definition isSet (err : error) : bool :=
  match err with Some _ => true | None => false end.

(** The answer is an error in the sense of the claim: any error, except
    "already up to date" from a fetch, a pull or a push. *)
Definition erred {A} (c : Call A) : A -> bool :=
  match c in Call T return T -> bool with
  | git_PlainOpen _ => isErr
  | Repository_Remotes _ => isErr
  | Repository_Remote _ _ => isErr
  | Repository_CreateRemote _ _ => isErr
  | Remote_Fetch _ _ => isFailure
  | Remote_List _ => isErr
  | Repository_Worktree _ => isErr
  | Repository_Branches _ => isErr
  | Worktree_Checkout _ _ => isSet
  | Repository_Head _ => isErr
  | Worktree_Pull _ _ => isFailure
  | Worktree_Reset _ _ => isSet
  | Repository_Push _ _ => isFailure
  | Worktree_Status _ => isErr
  | Repository_Tags _ => isErr
  end.

(** The same, leaving out the lookup and the creation of the target
    remote. *)
Definition failedCall {A} (c : Call A) : A -> bool :=
  match c in Call T return T -> bool with
  | Repository_Remote _ _ => fun _ => false
  | Repository_CreateRemote _ _ => fun _ => false
  | c' => erred c'
  end.

Definition erredEvent (e : Event) : bool :=
  match e with
  | EvCall c a => erred c a
  | EvLog _ _ _ => false
  end.

Definition failedEvent (e : Event) : bool :=
  match e with
  | EvCall c a => failedCall c a
  | EvLog _ _ _ => false
  end.

Definition consistencyFmt : string :=
  "failed to check out branch correctly: %s vs %s; %s vs %s".

(** The error line of the consistency check of line 211. *)
Definition isConsistencyLog (e : Event) : bool :=
  match e with
  | EvLog ErrorLevel fmt _ => String.eqb fmt consistencyFmt
  | _ => false
  end.

(** The shape of every run: it goes on as long as no call fails; a failed
    call is followed by one error line and the end of the process; the only
    other error line is the one of the consistency check, which ends the
    process with status 1; a panic without a failed call is a nil pointer of
    the configuration. *)
Fixpoint stopsOnlyOnError (nilPointer : Prop) (en : Ending) (tr : list Event) : Prop :=
  match tr with
  | [] =>
      match en with
      | Returned => True
      | Panicked => nilPointer
      | Exited _ => False
      end
  | e :: rest =>
      if failedEvent e then
        (en = Exited 1 \/ en = Panicked)
        /\ exists fmt args, rest = [EvLog ErrorLevel fmt args]
      else
        match e with
        | EvLog ErrorLevel fmt _ => en = Exited 1 /\ rest = [] /\ fmt = consistencyFmt
        | _ => stopsOnlyOnError nilPointer en rest
        end
  end.

Definition nilRemote (rs : Repo) : Prop :=
  SourceRemote rs = None \/ TargetRemote rs = None.

(** A property of the ending and the trace that every run of a statement
    has. *)
Definition holds {W A} (T : Ending -> list Event -> Prop) (m : M W A) : Prop :=
  forall w o w' tr, m w = (o, w', tr) -> T (ending o) tr.

(** The trace property behind [listedAfterFetch]: it does not look at the
    ending. *)
Definition fetchedFirst (_ : Ending) (tr : list Event) : Prop :=
  listedAfterFetch None tr.

Definition isLog (e : Event) : bool :=
  match e with
  | EvLog _ _ _ => true
  | EvCall _ _ => false
  end.

(** The fetch that lines 154-157 make of a remote. *)
Definition fetchAll (remote : GitRemote) : GitRemote * FetchOptions :=
  (remote, mkFetchOptions (Remote_String remote) AllTags).

(** *** The calls of each part of a run *)

(** Provisioning looks the target remote up and may create it; its log
    lines are not the one of the consistency check. *)
Definition provisionEvent (e : Event) : bool :=
  match e with
  | EvLog _ _ _ => negb (isConsistencyLog e)
  | EvCall c _ =>
      match c with
      | Repository_Remote _ _ | Repository_CreateRemote _ _ => true
      | _ => false
      end
  end.

(** The fetch loop fetches and lists remotes. *)
Definition fetchEvent (e : Event) : bool :=
  match e with
  | EvLog _ _ _ => negb (isConsistencyLog e)
  | EvCall c _ =>
      match c with
      | Remote_Fetch _ _ | Remote_List _ => true
      | _ => false
      end
  end.

(** The branch loop works on the work tree and pushes without
    [FollowTags]. *)
Definition branchEvent (e : Event) : bool :=
  match e with
  | EvLog _ _ _ => true
  | EvCall c _ =>
      match c with
      | Repository_Worktree _ | Repository_Branches _ | Worktree_Checkout _ _
      | Repository_Head _ | Worktree_Pull _ _ | Worktree_Reset _ _
      | Worktree_Status _ => true
      | Repository_Push _ o => negb (PushFollowTags o)
      | _ => false
      end
  end.

(** The tag loop pushes with [FollowTags]. *)
Definition tagEvent (e : Event) : bool :=
  match e with
  | EvLog _ _ _ => negb (isConsistencyLog e)
  | EvCall c _ =>
      match c with
      | Repository_Push _ o => PushFollowTags o
      | _ => false
      end
  end.

(** All events of a trace are of one part. *)
Definition madeOf (part : Event -> bool) (_ : Ending) (tr : list Event) : Prop :=
  Forall (fun e => part e = true) tr.

(** Every [remote.List] call of the trace is on a remote that bears the name
    of the source remote. *)
Definition listsOnly (source : Remote) (_ : Ending) (tr : list Event) : Prop :=
  Forall (fun remote => isSource source remote = true) (listCalls tr).

(** *** How a run ends *)

Definition branchesFmt : string := "failed to get branches: %v".

(** The format of the error line of line 189. *)
Definition lookupFmt : string :=
  "failed to determine whether repo %v already had local copy of branch %s in %s".

(** The error of a listing of the local branches that failed. *)
Definition branchesError (e : Event) : option GitError :=
  match e with
  | EvCall c a =>
      match c in Call T return T -> option GitError with
      | Repository_Branches _ =>
          fun a => match a with Ok _ => None | Err err => Some err end
      | _ => fun _ => None
      end a
  | EvLog _ _ _ => None
  end.

Definition isErrorLog (e : Event) : bool :=
  match e with
  | EvLog ErrorLevel _ _ => true
  | _ => false
  end.

(** How a run ends, read off its log: a failed listing of the local
    branches is followed by its error line and a panic; every other error
    line is the last event of a process that ends with status 1; the line of
    line 189 is never printed. *)
Fixpoint endsAsLogged (nilPointer : Prop) (en : Ending) (tr : list Event) : Prop :=
  match tr with
  | [] =>
      match en with
      | Returned => True
      | Panicked => nilPointer
      | Exited _ => False
      end
  | e :: rest =>
      match branchesError e with
      | Some err => en = Panicked /\ rest = [EvLog ErrorLevel branchesFmt [AErr err]]
      | None =>
          match e with
          | EvLog ErrorLevel fmt _ =>
              en = Exited 1 /\ rest = []
              /\ String.eqb fmt branchesFmt = false /\ String.eqb fmt lookupFmt = false
          | EvLog InfoLevel fmt _ =>
              String.eqb fmt lookupFmt = false /\ endsAsLogged nilPointer en rest
          | EvCall _ _ => endsAsLogged nilPointer en rest
          end
      end
  end.

Definition neverPanics (en : Ending) (_ : list Event) : Prop := en <> Panicked.

(** *** What is checked out, pulled and pushed *)

(** A push as the program makes it: forced, with the one ref-spec
    [+src:dst]; a push with [FollowTags] sends a tag to its own name, a push
    without sends a branch to a branch. *)
Definition mirrorPush (p : PushOptions) : Prop :=
  PushForce p = true
  /\ exists src dst,
       PushRefSpecs p = ["+" +:+ src +:+ ":" +:+ dst]
       /\ if PushFollowTags p
          then HasPrefix src "refs/tags/" = true /\ dst = src
          else IsBranch src = true /\ IsBranch dst = true.

(** The work tree is only ever moved to branches, and only branches are
    pulled. *)
Definition branchesOnly (_ : Ending) (tr : list Event) : Prop :=
  Forall (fun co => IsBranch (CoBranch co) = true) (checkouts tr)
  /\ Forall (fun p => IsBranch (PullReferenceName p) = true) (pulls tr)
  /\ Forall mirrorPush (pushes tr).

(** *** The repositories opened *)

Definition openOf (e : Event) : option string :=
  match e with
  | EvCall c _ => match c with git_PlainOpen path => Some path | _ => None end
  | EvLog _ _ _ => None
  end.

Definition opened (tr : list Event) : list string := pick openOf tr.

(** ** Running the program symbolically *)

Arguments Short : simpl never.
Arguments mapBranch : simpl never.
Arguments requiredRefSpecStr : simpl never.
Arguments tagsRefSpec : simpl never.
Arguments Remote_String : simpl never.
Arguments streq : simpl never.
Arguments IsBranch : simpl never.
Arguments HasPrefix : simpl never.

(** The outcome of a statement that did not return, in the type of the
    statement around it. *)
Definition castStop {A B} (o : Outcome A) : Outcome B :=
  match o with
  | Ret _ => Panic
  | Exit c => Exit c
  | Panic => Panic
  end.

Lemma bind_inv {W A B} (m : M W A) (k : A -> M W B) w o w' tr :
  bind m k w = (o, w', tr) ->
  (exists a w1 t1 t2,
      m w = (Ret a, w1, t1) /\ k a w1 = (o, w', t2) /\ tr = t1 ++ t2)
  \/ (exists o1, m w = (o1, w', tr) /\ (forall a, o1 <> Ret a) /\ o = castStop o1).
Proof.
  unfold bind. destruct (m w) as [[o1 w1] t1]. destruct o1 as [a | c | ].
  - destruct (k a w1) as [[o2 w2] t2] eqn:Ek. intros H. inversion H; subst.
    left. exists a, w1, t1, t2. repeat split; auto.
  - intros H. inversion H; subst. right. exists (Exit c).
    split; [reflexivity | split; [intros a; discriminate | reflexivity]].
  - intros H. inversion H; subst. right. exists Panic.
    split; [reflexivity | split; [intros a; discriminate | reflexivity]].
Qed.

Lemma bind_ret_eq {W A B} (m : M W A) (k : A -> M W B) w a w1 t1 :
  m w = (Ret a, w1, t1) ->
  bind m k w = (let '(o, w2, t2) := k a w1 in (o, w2, t1 ++ t2)).
Proof. intros H. unfold bind. rewrite H. destruct (k a w1) as [[? ?] ?]. reflexivity. Qed.

(** One step of a run kept in hypothesis [H]: name the answer of the next
    library call, or split on the value the program branches on. *)
Ltac run_step H :=
  match type of H with
  | context [?g ?A ?c ?w] =>
      match type of g with
      | GitLib _ =>
          is_var w;
          let a := fresh "ans" in
          let w1 := fresh "w" in
          let E := fresh "Ecall" in
          destruct (g A c w) as [a w1] eqn:E; cbn -[String.append] in H
      end
  | context [match ?x with Ok _ => _ | Err _ => _ end] =>
      is_var x; destruct x; cbn -[String.append] in H
  | context [match ?x with Some _ => _ | None => _ end] =>
      let E := fresh "Eopt" in destruct x eqn:E; cbn -[String.append] in H
  | context [match ?x with NoErrAlreadyUpToDate => _ | OtherError _ => _ end] =>
      is_var x; destruct x; cbn -[String.append] in H
  | context [if ?b then _ else _] =>
      let E := fresh "Eif" in destruct b eqn:E; cbn -[String.append] in H
  end.

Ltac run_done H :=
  match type of H with
  | (_, _, _) = (_, _, _) => inversion H; subst; clear H
  end.

Ltac run_all H := repeat (first [run_done H | run_step H]).

Lemma pick_app {A B} (f : A -> option B) l1 l2 :
  pick f (l1 ++ l2) = pick f l1 ++ pick f l2.
Proof.
  induction l1 as [| x l1 IH]; [reflexivity |].
  cbn. destruct (f x); cbn; rewrite IH; reflexivity.
Qed.

Lemma ending_castStop {A B} (o : Outcome A) :
  (forall a, o <> Ret a) -> ending (@castStop A B o) = ending o.
Proof. destruct o; intros H; try reflexivity. exfalso. eapply H. reflexivity. Qed.

(** Summaries: a step of a run that names the result of a whole phase. *)
Ltac run_phase H :=
  match type of H with
  | context [match ?x with pair _ _ => _ end] =>
      lazymatch type of x with
      | (Outcome _ * _ * list Event)%type =>
          lazymatch x with
          | ?f ?w =>
              is_var w;
              let o := fresh "o" in
              let w1 := fresh "w" in
              let t := fresh "t" in
              let E := fresh "Ephase" in
              destruct x as [[o w1] t] eqn:E; destruct o; cbn -[String.append] in H
          end
      end
  end.

Ltac run_all' H := repeat (first [run_done H | run_step H | run_phase H]).

(** *** Properties kept by sequencing *)

Section Sequential.

Context {W : Type}.
Variable T : Ending -> list Event -> Prop.
Hypothesis T_nil : T Returned [].
Hypothesis T_seq : forall t1 en t2, T Returned t1 -> T en t2 -> T en (t1 ++ t2).

Lemma holds_bind {A B} (m : M W A) (k : A -> M W B) :
  holds T m -> (forall a, holds T (k a)) -> holds T (bind m k).
Proof.
  intros Hm Hk w o w' tr H.
  apply bind_inv in H as [(a & w1 & t1 & t2 & H1 & H2 & ->) | (o1 & H1 & Hn & ->)].
  - apply T_seq; [exact (Hm _ _ _ _ H1) | exact (Hk _ _ _ _ _ H2)].
  - rewrite ending_castStop by exact Hn. exact (Hm _ _ _ _ H1).
Qed.

Lemma holds_foldEach {X S} (body : X -> S -> M W S) :
  (forall x s, holds T (body x s)) -> forall xs s, holds T (foldEach body xs s).
Proof.
  intros Hb. induction xs as [| x xs IH]; intros s.
  - intros w o w' tr H. inversion H; subst. exact T_nil.
  - cbn [foldEach]. apply holds_bind; [apply Hb | exact IH].
Qed.

Lemma holds_forEach {X} (body : X -> M W unit) :
  (forall x, holds T (body x)) -> forall xs, holds T (forEach body xs).
Proof. intros Hb xs. apply holds_foldEach. intros x _. apply Hb. Qed.

End Sequential.


(** ** Target-remote provisioning (main.go, lines 139-147) *)

(** C10 (amended): provisioning never stops the run of a repository that
    has a target remote.  The lookup of the target remote is followed by a
    creation call whenever it answers with an error, whatever the error;
    the creation call is made with the configured name and URL, its answer
    is dropped, and in every case the statement ends normally, so that
    whatever follows it in the program runs.  Without a target remote the
    name read at line 140 is behind a nil pointer: the process panics
    there, before any call. *)
Theorem provisioning_halts_only_without_target {W} (git : GitLib W) rs repo w :
  (TargetRemote rs = None -> provisionTarget git rs repo w = (Panic, w, []))
  /\ forall target,
       TargetRemote rs = Some target ->
       let lookup := Repository_Remote repo (Name target) in
       let create :=
         Repository_CreateRemote repo (mkRemoteConfig (Name target) [Url target]) in
       exists w' tr,
         provisionTarget git rs repo w = (Ret tt, w', tr)
         /\ match git _ lookup w with
            | (Ok r, w1) => tr = [EvCall lookup (Ok r)] /\ w' = w1
            | (Err e, w1) =>
                tr = [EvCall lookup (Err e);
                      EvLog InfoLevel "Target remote %s missing for '%s' ... adding %s"
                            [AStr (Name target); AStr (Path rs); AStr (Url target)];
                      EvCall create (fst (git _ create w1))]
                /\ w' = snd (git _ create w1)
            end
         /\ forall B (k : unit -> M W B),
              bind (provisionTarget git rs repo) k w
              = (let '(o, w2, t2) := k tt w' in (o, w2, tr ++ t2)).
Proof.
  split.
  { intros Ht. unfold provisionTarget, bind, deref, panic. rewrite Ht. reflexivity. }
  intros target Ht lookup create.
  assert (Hrun : exists w' tr,
             provisionTarget git rs repo w = (Ret tt, w', tr)
             /\ match git _ lookup w with
                | (Ok r, w1) => tr = [EvCall lookup (Ok r)] /\ w' = w1
                | (Err e, w1) =>
                    tr = [EvCall lookup (Err e);
                          EvLog InfoLevel "Target remote %s missing for '%s' ... adding %s"
                                [AStr (Name target); AStr (Path rs); AStr (Url target)];
                          EvCall create (fst (git _ create w1))]
                    /\ w' = snd (git _ create w1)
                end).
  { unfold provisionTarget, bind, call, logf, ret, deref. rewrite Ht.
    subst lookup create. cbn -[String.append].
    destruct (git _ (Repository_Remote repo (Name target)) w) as [[r | e] w1].
    - eexists _, _. split; [reflexivity | split; reflexivity].
    - cbn -[String.append].
      destruct (git _ (Repository_CreateRemote repo
                         (mkRemoteConfig (Name target) [Url target])) w1) as [a w2].
      eexists _, _. split; [reflexivity | split; reflexivity]. }
  destruct Hrun as (w' & tr & Hp & Hshape).
  exists w', tr. split; [exact Hp | split; [exact Hshape |]].
  intros B k. apply bind_ret_eq. exact Hp.
Qed.

(** A target remote without a name: the lookup fails, the creation fails,
    and provisioning ends normally all the same. *)
Lemma provisioning_halts_only_without_target_witness :
  TargetRemote Examples.nameless = Some (mkRemote "" Examples.githubURL)
  /\ exists w' tr,
       provisionTarget RefGit.lib Examples.nameless Examples.fooPath Examples.fresh
       = (Ret tt, w', tr)
       /\ List.length tr = 3%nat.
Proof.
  split; [reflexivity |].
  destruct (provisioning_halts_only_without_target RefGit.lib Examples.nameless
              Examples.fooPath Examples.fresh) as [_ Hsome].
  destruct (Hsome (mkRemote "" Examples.githubURL) eq_refl)
    as (w' & tr & Hp & Hshape & _).
  exists w', tr. split; [exact Hp |].
  vm_compute in Hshape. destruct Hshape as [-> _]. reflexivity.
Defined.

(** C10 as stated does not hold for every input: the repository of the
    README without its [targetRemote] key makes provisioning panic, and the
    run of the program ends there, after the repository was opened and its
    remotes were listed, with nothing fetched and nothing pushed. *)
Lemma provisioning_panics_without_target :
  provisionTarget RefGit.lib Edge.targetless Examples.fooPath Examples.fresh
  = (Panic, Examples.fresh, [])
  /\ main RefGit.lib (mkRepoSync [Edge.targetless] ∅) Examples.fresh
     = (Panic, Examples.fresh,
        [EvLog InfoLevel "Opening %s..." [AStr Examples.fooPath];
         EvCall (git_PlainOpen Examples.fooPath) (Ok Examples.fooPath);
         EvCall (Repository_Remotes Examples.fooPath)
                (Ok [mkGitRemote Examples.fooPath Examples.origin])]).
Proof. split; vm_compute; reflexivity. Qed.

(** ** Matching a remote branch with a local one (main.go, lines 101-113) *)

Lemma streq_eq a b : streq a b = true <-> a = b.
Proof. unfold streq. apply String.eqb_eq. Qed.

Lemma streq_neq a b : streq a b = false <-> a <> b.
Proof. unfold streq. apply String.eqb_neq. Qed.

Lemma fold_found_none remoteBranch l acc :
  (forall x, In x l -> RefName x <> RefName remoteBranch) ->
  fold_left
    (fun found localBranch =>
       if streq (RefName localBranch) (RefName remoteBranch)
       then Some localBranch else found) l acc = acc.
Proof.
  revert acc. induction l as [| x l IH]; intros acc Hl; [reflexivity |].
  cbn [fold_left]. destruct (streq (RefName x) (RefName remoteBranch)) eqn:E.
  - apply streq_eq in E. exfalso. apply (Hl x); [left; reflexivity | exact E].
  - apply IH. intros y Hy. apply Hl. right. exact Hy.
Qed.

(** The branch the lookup keeps is the last one of the listing that bears
    the name of the remote branch. *)
Lemma foundLocalBranch_some remoteBranch branches localBranch :
  foundLocalBranch remoteBranch branches = Some localBranch <->
  exists before after,
    branches = before ++ localBranch :: after
    /\ RefName localBranch = RefName remoteBranch
    /\ forall x, In x after -> RefName x <> RefName remoteBranch.
Proof.
  unfold foundLocalBranch. split.
  - induction branches as [| x l IH] using rev_ind; [discriminate |].
    rewrite fold_left_app. cbn [fold_left].
    destruct (streq (RefName x) (RefName remoteBranch)) eqn:E.
    + intros H. inversion H; subst. exists l, []. apply streq_eq in E.
      split; [reflexivity | split; [exact E | intros y []]].
    + intros H. destruct (IH H) as (b & a & -> & Hn & Ha).
      exists b, (a ++ [x]). split; [now rewrite <- app_assoc |].
      split; [exact Hn |]. intros y Hy. apply in_app_or in Hy as [Hy | [<- | []]].
      * apply Ha, Hy.
      * apply streq_neq, E.
  - intros (b & a & -> & Hn & Ha).
    rewrite fold_left_app. cbn [fold_left].
    apply streq_eq in Hn. rewrite Hn. apply fold_found_none. exact Ha.
Qed.

Lemma foundLocalBranch_none remoteBranch branches :
  foundLocalBranch remoteBranch branches = None <->
  forall x, In x branches -> RefName x <> RefName remoteBranch.
Proof.
  unfold foundLocalBranch. split.
  - induction branches as [| x l IH] using rev_ind; [intros _ y [] |].
    rewrite fold_left_app. cbn [fold_left].
    destruct (streq (RefName x) (RefName remoteBranch)) eqn:E; [discriminate |].
    intros H y Hy. apply in_app_or in Hy as [Hy | [<- | []]].
    + apply IH; assumption.
    + apply streq_neq, E.
  - intros H. apply fold_found_none. exact H.
Qed.

(** ** One branch (main.go, lines 180-292) *)

Ltac unfold_branch H :=
  unfold syncBranch, reconcileLocal, repoGetLocalBranchForRemote, createLocal,
    updateLocal, pullAndReset, pushBranch, bind, call, logf, ret, exit, panic, deref in H;
  cbn -[String.append] in H.

(** What the two branches of lines 193-228 know about names and hashes. *)
Ltac name_facts :=
  repeat match goal with
  | H : foundLocalBranch _ _ = Some _ |- _ =>
      apply foundLocalBranch_some in H as (? & ? & ? & ? & ?)
  | H : negb (streq _ _) || negb (streq _ _) = false |- _ =>
      apply orb_false_elim in H as [? ?]
  | H : negb (streq _ _) = false |- _ =>
      apply negb_false_iff in H; apply streq_eq in H
  end.

(** C4: [mapBranch] answers with the entry of the table when the name is a
    key and with the name itself otherwise, hence always with the name for
    the empty table; and a branch iteration pushes at most once, with the
    single forced ref-spec [+<local name>:refs/heads/<mapBranch (short name
    of the remote branch)>] to the target remote, the local name being the
    one that was checked out, which is the name of the remote branch. *)
Theorem branch_push_refspec {W} (git : GitLib W) repoSync rs repo remoteBranch w o w' tr :
  syncBranch git repoSync rs repo remoteBranch w = (o, w', tr) ->
  (forall b v, BranchMapping repoSync !! b = Some v -> mapBranch repoSync b = v)
  /\ (forall b, BranchMapping repoSync !! b = None -> mapBranch repoSync b = b)
  /\ (BranchMapping repoSync = ∅ -> forall b, mapBranch repoSync b = b)
  /\ ((pushes tr = [] /\ o <> Ret tt)
      \/ exists target co,
           TargetRemote rs = Some target
           /\ checkouts tr = [co]
           /\ CoBranch co = RefName remoteBranch
           /\ pushes tr =
              [branchPush target
                 ("+" +:+ CoBranch co +:+ ":refs/heads/" +:+
                  mapBranch repoSync (Short (RefName remoteBranch)))]).
Proof.
  intros H.
  split; [intros b v Hb; unfold mapBranch; rewrite Hb; reflexivity |].
  split; [intros b Hb; unfold mapBranch; rewrite Hb; reflexivity |].
  split; [intros He b; unfold mapBranch; rewrite He, lookup_empty; reflexivity |].
  unfold_branch H. run_all H.
  all: try (left; split; [reflexivity | discriminate]).
  all: right; name_facts.
  all: eexists _, _; split; [reflexivity | split; [reflexivity |]].
  all: unfold requiredRefSpecStr, branchPush; cbn -[String.append].
  all: split; congruence.
Qed.

Lemma branch_push_refspec_witness :
  exists o w' tr,
    syncBranch RefGit.lib Examples.readme Examples.foo Examples.fooPath
               (Examples.master "abc123") Examples.cloned = (o, w', tr)
    /\ mapBranch Examples.readme "master" = "main"
    /\ mapBranch Examples.readme "develop" = "develop"
    /\ pushes tr =
       [branchPush (mkRemote "github" Examples.githubURL)
                   "+refs/heads/master:refs/heads/main"].
Proof.
  eexists _, _, _. split; [vm_compute; reflexivity |].
  match goal with
  | |- context [pushes ?t] =>
      destruct (branch_push_refspec RefGit.lib Examples.readme Examples.foo Examples.fooPath
                  (Examples.master "abc123") Examples.cloned (Ret tt) _ t
                  ltac:(vm_compute; reflexivity))
        as (Hsome & Hnone & _ & Hpush)
  end.
  split; [apply Hsome; reflexivity |].
  split; [apply Hnone; reflexivity |].
  destruct Hpush as [[_ Habs] | (target & co & Ht & Hc & Hn & Hp)].
  - exfalso. apply Habs. reflexivity.
  - rewrite Hp, Hn. inversion Ht; subst target. vm_compute. reflexivity.
Defined.

(** The checkout of lines 193-228 as a function of the lookup. *)
Lemma checkout_choice remoteBranch l2 co :
  match foundLocalBranch remoteBranch l2 with
  | Some localBranch => co = mkCheckoutOptions ZeroHash (RefName localBranch) false true false
  | None => co = mkCheckoutOptions (RefHash remoteBranch) (RefName remoteBranch) true true false
  end ->
  (CoCreate co = false <->
   exists localBranch, In localBranch l2 /\ RefName localBranch = RefName remoteBranch)
  /\ (CoCreate co = true <->
      forall localBranch, In localBranch l2 -> RefName localBranch <> RefName remoteBranch)
  /\ (CoCreate co = true ->
      co = mkCheckoutOptions (RefHash remoteBranch) (RefName remoteBranch) true true false)
  /\ (CoCreate co = false ->
      exists localBranch,
        foundLocalBranch remoteBranch l2 = Some localBranch
        /\ co = mkCheckoutOptions ZeroHash (RefName localBranch) false true false).
Proof.
  destruct (foundLocalBranch remoteBranch l2) as [lb |] eqn:E; intros ->; cbn.
  - pose proof (proj1 (foundLocalBranch_some _ _ _) E) as (b & a & Hl & Hn & _).
    assert (Hin : In lb l2) by (rewrite Hl; apply in_elt).
    split; [split; [intros _; exists lb; auto | reflexivity] |].
    split; [split; [discriminate | intros Hall; exfalso; exact (Hall lb Hin Hn)] |].
    split; [discriminate |]. intros _. exists lb. auto.
  - pose proof (proj1 (foundLocalBranch_none _ _) E) as Hall.
    split; [split; [discriminate | intros (lb & Hin & Hn); exfalso; exact (Hall lb Hin Hn)] |].
    split; [split; [intros _; exact Hall | reflexivity] |].
    split; [reflexivity | discriminate].
Qed.

(** C2: once the two branch listings of an iteration have been read, exactly
    one checkout follows, and it is the update checkout (no [Create]) if and
    only if some branch of the second listing has a reference name equal, as
    a string, to the reference name of the remote branch; otherwise it is
    the create checkout of that name at the remote hash.  Neither short
    names nor hashes take part in the choice. *)
Theorem update_iff_same_reference_name {W} (git : GitLib W) rs repo remoteBranch w o w' tr
  l1 l2 :
  reconcileLocal git rs repo remoteBranch w = (o, w', tr) ->
  listings tr = [l1; l2] ->
  exists co,
    checkouts tr = [co]
    /\ (CoCreate co = false <->
        exists localBranch, In localBranch l2 /\ RefName localBranch = RefName remoteBranch)
    /\ (CoCreate co = true <->
        forall localBranch, In localBranch l2 -> RefName localBranch <> RefName remoteBranch)
    /\ (CoCreate co = true ->
        co = mkCheckoutOptions (RefHash remoteBranch) (RefName remoteBranch) true true false)
    /\ (CoCreate co = false ->
        exists localBranch,
          foundLocalBranch remoteBranch l2 = Some localBranch
          /\ co = mkCheckoutOptions ZeroHash (RefName localBranch) false true false).
Proof.
  intros H Hl. unfold_branch H. run_all H.
  all: cbn in Hl; try discriminate Hl.
  all: inversion Hl; subst; clear Hl.
  all: eexists; split; [reflexivity |].
  all: apply checkout_choice; rewrite Eopt; reflexivity.
Qed.

Lemma update_iff_same_reference_name_witness :
  exists o w' tr,
    reconcileLocal RefGit.lib Examples.foo Examples.fooPath (Examples.master "abc123")
                   Examples.behind = (o, w', tr)
    /\ listings tr = [[Examples.master "0ld000"]; [Examples.master "0ld000"]]
    /\ exists co, checkouts tr = [co] /\ CoCreate co = false.
Proof.
  eexists _, _, _. split; [vm_compute; reflexivity |].
  split; [vm_compute; reflexivity |].
  match goal with
  | |- exists co, checkouts ?t = _ /\ _ =>
      destruct (update_iff_same_reference_name RefGit.lib Examples.foo Examples.fooPath
                  (Examples.master "abc123") Examples.behind _ _ t
                  [Examples.master "0ld000"] [Examples.master "0ld000"]
                  ltac:(vm_compute; reflexivity) ltac:(vm_compute; reflexivity))
        as (co & Hc & Hiff & _)
  end.
  exists co. split; [exact Hc |]. apply Hiff.
  exists (Examples.master "0ld000"). split; [left; reflexivity | reflexivity].
Defined.

(** A local branch with another name is no match, whatever its hash: the
    create path is taken. *)
Example same_hash_is_no_match :
  foundLocalBranch (Examples.master "abc123") [Examples.develop "abc123"] = None.
Proof. reflexivity. Qed.

Ltac check_facts :=
  match goal with
  | Eif : negb (streq ?a ?b) || negb (streq ?c ?d) = true, Hh : ?a = ?b, Hn : ?c = ?d |- _ =>
      exfalso;
      rewrite (proj2 (streq_eq a b) Hh), (proj2 (streq_eq c d) Hn) in Eif;
      discriminate Eif
  | Eif : negb (streq _ _) || negb (streq _ _) = false, Hbad : _ \/ _ |- _ =>
      name_facts; exfalso; destruct Hbad; congruence
  end.

(** C8: on the create path, when [repo.Head()] after the checkout answers
    with a reference whose hash or whose name differs from the remote
    branch's, the run logs the mismatch and exits with status 1 without a
    pull, a reset or a push; when both agree the pull of the branch is
    issued next, and the reset and the push follow unless the pull or the
    reset fails. *)
Theorem create_path_consistency_check {W} (git : GitLib W) repoSync rs repo remoteBranch
  w o w' tr co localBranch :
  syncBranch git repoSync rs repo remoteBranch w = (o, w', tr) ->
  checkouts tr = [co] -> CoCreate co = true ->
  headsRead tr = [localBranch] ->
  (RefHash localBranch <> RefHash remoteBranch \/ RefName localBranch <> RefName remoteBranch ->
   o = Exit 1
   /\ steps tr = [StepCheckout co]
   /\ exists pre,
        tr = pre ++
             [EvLog ErrorLevel "failed to check out branch correctly: %s vs %s; %s vs %s"
                    [AStr (RefHash localBranch); AStr (RefHash remoteBranch);
                     AStr (RefName localBranch); AStr (RefName remoteBranch)]])
  /\ (RefHash localBranch = RefHash remoteBranch /\ RefName localBranch = RefName remoteBranch ->
      forall source target,
        SourceRemote rs = Some source -> TargetRemote rs = Some target ->
        exists rest,
          steps tr =
            StepCheckout co
            :: StepPull (mkPullOptions (Name source) (RefName remoteBranch) true true)
            :: rest
          /\ (rest = [StepReset (mkResetOptions (RefHash localBranch) HardReset);
                      StepPush (branchPush target
                                  (requiredRefSpecStr repoSync localBranch remoteBranch))]
              \/ (o = Exit 1
                  /\ (rest = []
                      \/ rest = [StepReset (mkResetOptions (RefHash localBranch) HardReset)])))).
Proof.
  intros H Hc Hcreate Hh. unfold_branch H. run_all H.
  all: cbn in Hc, Hh; try discriminate Hc; try discriminate Hh.
  all: inversion Hc; subst co; clear Hc; try discriminate Hcreate.
  all: inversion Hh; subst; clear Hh.
  all: split; [intros Hbad | intros [Hhash Hname] source target Hs Ht].
  all: try check_facts.
  all: try (split; [reflexivity | split; [reflexivity |]];
            match goal with
            | |- exists pre, ?t = pre ++ _ => exists (removelast t); reflexivity
            end).
  all: try discriminate Hs; try discriminate Ht.
  all: inversion Hs; inversion Ht; subst.
  all: eexists; split; [reflexivity |].
  all: first [left; reflexivity
             | right; split; [reflexivity | first [left; reflexivity | right; reflexivity]]].
Qed.

Lemma create_path_consistency_check_witness :
  exists o w' tr co,
    syncBranch RefGit.lib Examples.readme Examples.foo Examples.fooPath
               (Examples.master "abc123") Examples.cloned = (o, w', tr)
    /\ checkouts tr = [co] /\ CoCreate co = true
    /\ headsRead tr = [Examples.master "abc123"]
    /\ exists rest,
         steps tr =
           StepCheckout co
           :: StepPull (mkPullOptions "origin" "refs/heads/master" true true)
           :: rest.
Proof.
  eexists _, _, _, _. split; [vm_compute; reflexivity |].
  split; [vm_compute; reflexivity |]. split; [reflexivity |].
  split; [vm_compute; reflexivity |].
  match goal with
  | |- exists rest, steps ?t = StepCheckout ?c :: _ =>
      destruct (create_path_consistency_check RefGit.lib Examples.readme Examples.foo
                  Examples.fooPath (Examples.master "abc123") Examples.cloned _ _ t c
                  (Examples.master "abc123")
                  ltac:(vm_compute; reflexivity) ltac:(vm_compute; reflexivity)
                  eq_refl ltac:(vm_compute; reflexivity))
        as [_ Hgood]
  end.
  destruct (Hgood (conj eq_refl eq_refl) (mkRemote "origin" "")
                  (mkRemote "github" Examples.githubURL) eq_refl eq_refl)
    as (rest & Hsteps & _).
  exists rest. exact Hsteps.
Defined.

(** With a library that answers [repo.Head()] with another name the check
    fails and the branch is neither pulled nor pushed. *)
Example create_path_inconsistent_run :
  exists w' tr,
    syncBranch Examples.detachedHead Examples.readme Examples.foo Examples.fooPath
               (Examples.master "abc123") Examples.cloned = (Exit 1, w', tr)
    /\ headsRead tr = [mkRef "HEAD" "abc123"]
    /\ pulls tr = [] /\ pushes tr = [].
Proof. eexists _, _. repeat split; vm_compute; reflexivity. Qed.

(** The update path for every behaviour of the library: when the lookup
    has found a local branch, the iteration reads the work tree and the two
    listings, checks the found branch out with force and without create,
    pulls the reference of the remote branch from the source remote as a
    forced single-branch pull, and then resets hard to the hash the found
    branch had in the second listing, read before the checkout and the
    pull; the push of the branch follows.  A run that stops early has made
    a prefix of these steps. *)
Lemma update_path_steps {W} (git : GitLib W) repoSync rs repo remoteBranch w o w' tr co :
  syncBranch git repoSync rs repo remoteBranch w = (o, w', tr) ->
  checkouts tr = [co] -> CoCreate co = false ->
  exists wt l1 l2 localBranch err rest,
    tr = EvCall (Repository_Worktree repo) (Ok wt)
         :: EvCall (Repository_Branches repo) (Ok l1)
         :: EvCall (Repository_Branches repo) (Ok l2)
         :: EvLog InfoLevel "Switching to branch %s in %s"
                  [AStr (Short (RefName localBranch)); AStr (Path rs)]
         :: EvCall (Worktree_Checkout wt co) err
         :: rest
    /\ foundLocalBranch remoteBranch l2 = Some localBranch
    /\ co = mkCheckoutOptions ZeroHash (RefName localBranch) false true false
    /\ forall source target,
         SourceRemote rs = Some source -> TargetRemote rs = Some target ->
         exists more,
           [StepCheckout co;
            StepPull (mkPullOptions (Name source) (RefName remoteBranch) true true);
            StepReset (mkResetOptions (RefHash localBranch) HardReset);
            StepPush (branchPush target
                        (requiredRefSpecStr repoSync localBranch remoteBranch))]
           = steps tr ++ more
           /\ (o = Ret tt -> more = []).
Proof.
  intros H Hc Hupdate. unfold_branch H. run_all H.
  all: cbn in Hc; try discriminate Hc.
  all: inversion Hc; subst co; clear Hc; try discriminate Hupdate.
  all: eexists _, _, _, _, _, _.
  all: split; [reflexivity | split; [eassumption | split; [reflexivity |]]].
  all: intros source target Hs Ht.
  all: try discriminate Hs; try discriminate Ht.
  all: inversion Hs; inversion Ht; subst.
  all: eexists; split; [cbn; reflexivity | intros Ho; try discriminate Ho; reflexivity].
Qed.

(** C1: the claim asks that, on the update path, the local branch be at the
    commit the remote listing advertised when the branch is pushed.  The
    code misses it.  With a local [master] at [0ld000], the source
    advertising [master] at [abc123] and the reference semantics of the
    library, the update path is taken; the pull moves the branch to
    [abc123]; the reset of lines 243-246 goes to the hash that the lookup
    of line 187 had read before the checkout and the pull, and moves the
    branch back to [0ld000]; the branch is at [0ld000] when it is pushed,
    and the run ends normally with the target at [0ld000] under
    [refs/heads/main].  (The create path checks the equality of the two
    hashes at line 211.) *)
Theorem update_path_keeps_stale_commit :
  exists wt localBranch w1 tr w' run,
    fst (RefGit.lib _ (Remote_List (mkGitRemote Examples.fooPath Examples.origin))
                    Examples.behind)
    = Ok [mkRef "HEAD" "abc123"; Examples.master "abc123"]
    /\ reconcileLocal RefGit.lib Examples.foo Examples.fooPath (Examples.master "abc123")
                      Examples.behind
       = (Ret (wt, localBranch), w1, tr)
    /\ steps tr =
       [StepCheckout (mkCheckoutOptions ZeroHash "refs/heads/master" false true false);
        StepPull (mkPullOptions "origin" "refs/heads/master" true true);
        StepReset (mkResetOptions "0ld000" HardReset)]
    /\ fst (RefGit.lib _ (Repository_Branches Examples.fooPath) w1)
       = Ok [Examples.master "0ld000"]
    /\ fst (RefGit.lib _ (Repository_Head Examples.fooPath) w1)
       = Ok (Examples.master "0ld000")
    /\ RefHash (Examples.master "0ld000") <> RefHash (Examples.master "abc123")
    /\ main RefGit.lib Examples.readme Examples.behind = (Ret tt, w', run)
    /\ pushes run =
       [branchPush (mkRemote "github" Examples.githubURL)
                   "+refs/heads/master:refs/heads/main";
        tagPush (mkRemote "github" Examples.githubURL) Examples.v1]
    /\ RefGit.assoc Examples.githubURL (RefGit.servers w')
       = Some [mkRef "refs/heads/main" "0ld000"; Examples.v1].
Proof.
  eexists _, _, _, _, _, _.
  split; [vm_compute; reflexivity |].
  split; [vm_compute; reflexivity |].
  split; [vm_compute; reflexivity |].
  split; [vm_compute; reflexivity |].
  split; [vm_compute; reflexivity |].
  split; [cbn; discriminate |].
  split; [vm_compute; reflexivity |].
  split; vm_compute; reflexivity.
Qed.

(** ** Errors (main.go, every [if err != nil]) *)

Lemma stopsOnlyOnError_seq nilPointer t1 en t2 :
  stopsOnlyOnError nilPointer Returned t1 ->
  stopsOnlyOnError nilPointer en t2 ->
  stopsOnlyOnError nilPointer en (t1 ++ t2).
Proof.
  induction t1 as [| e t1 IH]; intros H1 H2; [exact H2 |].
  cbn in *. destruct (failedEvent e).
  - destruct H1 as [[H1 | H1] _]; discriminate H1.
  - destruct e as [[] fmt args | A c a]; try (apply IH; assumption).
    destruct H1 as [H1 _]; discriminate H1.
Qed.

Lemma stopsOnlyOnError_weaken (P Q : Prop) en tr :
  (P -> Q) -> stopsOnlyOnError P en tr -> stopsOnlyOnError Q en tr.
Proof.
  intros HPQ. induction tr as [| e tr IH]; cbn.
  - destruct en; auto.
  - destruct (failedEvent e); [auto |].
    destruct e as [[] fmt args | A c a]; auto.
Qed.

Ltac close_stopping :=
  cbn;
  repeat match goal with
         | E : isFailure _ = _ |- _ => rewrite E
         end;
  cbn;
  unfold nilRemote;
  repeat match goal with
         | |- _ /\ _ => split
         | |- exists _, _ => eexists
         end;
  auto.

Lemma stopping_provisionTarget {W} (git : GitLib W) rs repo :
  holds (stopsOnlyOnError (nilRemote rs)) (provisionTarget git rs repo).
Proof.
  intros w o w' tr H.
  unfold provisionTarget, bind, call, logf, ret, exit, panic, deref in H.
  cbn -[String.append] in H. run_all H.
  all: close_stopping.
Qed.

Lemma stopping_syncBranch {W} (git : GitLib W) repoSync rs repo remoteBranch :
  holds (stopsOnlyOnError (nilRemote rs)) (syncBranch git repoSync rs repo remoteBranch).
Proof.
  intros w o w' tr H. unfold_branch H. run_all H.
  all: close_stopping.
Qed.

Lemma stopping_fetchRemote {W} (git : GitLib W) rs remote branchesToSync :
  holds (stopsOnlyOnError (nilRemote rs)) (fetchRemote git rs remote branchesToSync).
Proof.
  intros w o w' tr H.
  unfold fetchRemote, bind, call, logf, ret, exit, panic, deref in H.
  cbn -[String.append] in H. run_all' H.
  all: try solve [close_stopping].
  all: cbn; rewrite Eif; cbn.
  all: refine (holds_foldEach _ _ (stopsOnlyOnError_seq _) _ _ _ _ _ _ _ _ Ephase); [exact I |].
  all: intros x s ? ? ? ? Hc; unfold collectBranch, bind, logf, ret in Hc.
  all: cbn -[String.append] in Hc; run_all Hc; close_stopping.
Qed.

Lemma stopping_pushTag {W} (git : GitLib W) rs repo t :
  holds (stopsOnlyOnError (nilRemote rs)) (pushTag git rs repo t).
Proof.
  intros w o w' tr H.
  unfold pushTag, bind, call, logf, ret, exit, panic, deref in H.
  cbn -[String.append] in H. run_all H.
  all: close_stopping.
Qed.

Lemma stopping_fetchEverything {W} (git : GitLib W) rs remotes branchesToSync :
  holds (stopsOnlyOnError (nilRemote rs)) (fetchEverything git rs remotes branchesToSync).
Proof.
  apply holds_foldEach;
    [exact I | apply stopsOnlyOnError_seq | intros; apply stopping_fetchRemote].
Qed.

Lemma stopping_syncBranches {W} (git : GitLib W) repoSync rs repo branchesToSync :
  holds (stopsOnlyOnError (nilRemote rs)) (syncBranches git repoSync rs repo branchesToSync).
Proof.
  apply holds_forEach;
    [exact I | apply stopsOnlyOnError_seq | intros; apply stopping_syncBranch].
Qed.

Lemma stopping_pushEachTag {W} (git : GitLib W) rs repo tags :
  holds (stopsOnlyOnError (nilRemote rs)) (pushEachTag git rs repo tags).
Proof.
  apply holds_forEach;
    [exact I | apply stopsOnlyOnError_seq | intros; apply stopping_pushTag].
Qed.

Ltac phase_stopping :=
  match goal with
  | E : _ = (?o, _, ?t) |- stopsOnlyOnError _ _ ?t =>
      first [ exact (stopping_provisionTarget _ _ _ _ _ _ _ E)
            | exact (stopping_fetchEverything _ _ _ _ _ _ _ _ E)
            | exact (stopping_syncBranches _ _ _ _ _ _ _ _ _ E)
            | exact (stopping_pushEachTag _ _ _ _ _ _ _ _ E) ]
  end.

Ltac split_stopping :=
  repeat (cbn;
          match goal with
          | |- stopsOnlyOnError _ _ (_ ++ _) => apply stopsOnlyOnError_seq; [phase_stopping |]
          end);
  cbn; first [phase_stopping | close_stopping].

Lemma stopping_syncRepo {W} (git : GitLib W) repoSync rs :
  holds (stopsOnlyOnError (nilRemote rs)) (syncRepo git repoSync rs).
Proof.
  intros w o w' tr H.
  unfold syncRepo, pushTags, bind, call, logf, ret, exit, panic in H.
  cbn -[String.append] in H. run_all' H.
  all: split_stopping.
Qed.

Lemma stopping_syncRepos {W} (git : GitLib W) repoSync allRepos repos :
  (forall rs, In rs repos -> In rs allRepos) ->
  holds (stopsOnlyOnError (exists rs, In rs allRepos /\ nilRemote rs))
        (forEach (syncRepo git repoSync) repos).
Proof.
  induction repos as [| rs repos IH]; intros Hin.
  - intros w o w' tr H. cbv in H. inversion H. exact I.
  - unfold forEach. cbn [foldEach].
    apply holds_bind; [apply stopsOnlyOnError_seq | |].
    + intros w o w' tr H.
      eapply stopsOnlyOnError_weaken; [| exact (stopping_syncRepo _ _ _ _ _ _ _ H)].
      intros Hn. exists rs. split; [apply Hin; left; reflexivity | exact Hn].
    + intros []. apply IH. intros r Hr. apply Hin. right. exact Hr.
Qed.

Lemma stopping_main {W} (git : GitLib W) repoSync :
  holds (stopsOnlyOnError (exists rs, In rs (Repos repoSync) /\ nilRemote rs))
        (main git repoSync).
Proof. unfold main. apply stopping_syncRepos. auto. Qed.

Lemma stopsOnlyOnError_failed nilPointer en tr :
  stopsOnlyOnError nilPointer en tr ->
  forall pre e post,
    tr = pre ++ e :: post -> failedEvent e = true ->
    (en = Exited 1 \/ en = Panicked)
    /\ exists fmt args, post = [EvLog ErrorLevel fmt args].
Proof.
  intros H pre. revert tr H.
  induction pre as [| x pre IH]; intros tr H e post -> He.
  - cbn in H. rewrite He in H. exact H.
  - cbn in H. destruct (failedEvent x) eqn:Hx.
    + destruct H as [_ (fmt & args & Hrest)]. exfalso.
      destruct pre as [| y pre]; cbn in Hrest.
      * inversion Hrest; subst. discriminate He.
      * inversion Hrest. destruct pre; discriminate.
    + destruct x as [[] fmt args | A c a].
      * eapply IH; [exact H | reflexivity | exact He].
      * destruct H as (_ & Hrest & _). destruct pre; discriminate Hrest.
      * eapply IH; [exact H | reflexivity | exact He].
Qed.

Lemma stopsOnlyOnError_clean nilPointer en tr :
  stopsOnlyOnError nilPointer en tr ->
  (forall e, In e tr -> failedEvent e = false) ->
  en = Returned
  \/ (en = Exited 1 /\ exists pre args, tr = pre ++ [EvLog ErrorLevel consistencyFmt args])
  \/ (en = Panicked /\ nilPointer).
Proof.
  induction tr as [| x tr IH]; intros H Hall.
  - cbn in H. destruct en; [left; reflexivity | contradiction | right; right; auto].
  - cbn in H. rewrite (Hall x (or_introl eq_refl)) in H.
    assert (Hrest : forall e, In e tr -> failedEvent e = false)
      by (intros e He; apply Hall; right; exact He).
    assert (Hcons : stopsOnlyOnError nilPointer en tr ->
                    en = Returned
                    \/ (en = Exited 1
                        /\ exists pre args,
                             x :: tr = pre ++ [EvLog ErrorLevel consistencyFmt args])
                    \/ (en = Panicked /\ nilPointer)).
    { intros Ht. destruct (IH Ht Hrest) as [Hr | [(He & pre & args & ->) | Hp]].
      - left. exact Hr.
      - right. left. split; [exact He |]. exists (x :: pre), args. reflexivity.
      - right. right. exact Hp. }
    destruct x as [[] fmt args | A c a]; [apply Hcons, H | | apply Hcons, H].
    destruct H as (He & -> & ->). right. left. split; [exact He |].
    exists [], args. reflexivity.
Qed.

(** C6 (amended): an "already up to date" answer of a fetch, a pull or a
    push is no failure, and neither is any answer of the lookup or of the
    creation of the target remote.  Every other error of a library call
    stops the run at once: the failed call is followed by exactly one error
    line and the process ends with status 1, or by a panic.  A run in which
    no call fails ends normally, unless the consistency check of the create
    path fails or the configuration holds a nil remote. *)
Theorem errors_stop_the_run {W} (git : GitLib W) repoSync w o w' tr :
  main git repoSync w = (o, w', tr) ->
  (forall remote fo wt po repo pu,
      failedCall (Remote_Fetch remote fo) (Some NoErrAlreadyUpToDate) = false
      /\ failedCall (Worktree_Pull wt po) (Some NoErrAlreadyUpToDate) = false
      /\ failedCall (Repository_Push repo pu) (Some NoErrAlreadyUpToDate) = false)
  /\ (forall pre e post,
        tr = pre ++ e :: post -> failedEvent e = true ->
        (o = Exit 1 \/ o = Panic)
        /\ exists fmt args, post = [EvLog ErrorLevel fmt args])
  /\ ((forall e, In e tr -> failedEvent e = false) ->
      o = Ret tt
      \/ (o = Exit 1
          /\ exists pre args, tr = pre ++ [EvLog ErrorLevel consistencyFmt args])
      \/ (o = Panic /\ exists rs, In rs (Repos repoSync) /\ nilRemote rs)).
Proof.
  intros H. pose proof (stopping_main git repoSync _ _ _ _ H) as Hv.
  split; [intros; repeat split; reflexivity |]. split.
  - intros pre e post Htr He.
    destruct (stopsOnlyOnError_failed _ _ _ Hv pre e post Htr He) as [Hen Hpost].
    split; [| exact Hpost].
    destruct o as [[] | c |]; cbn in Hen.
    + destruct Hen; discriminate.
    + destruct Hen as [Hen | Hen]; [inversion Hen; left; reflexivity | discriminate].
    + right. reflexivity.
  - intros Hclean.
    destruct (stopsOnlyOnError_clean _ _ _ Hv Hclean) as [Hr | [[He Hlog] | [Hp Hnil]]].
    + left. destruct o as [[] | c |]; [reflexivity | discriminate | discriminate].
    + right. left. split; [| exact Hlog].
      destruct o as [[] | c |]; [discriminate | inversion He; reflexivity | discriminate].
    + right. right. split; [| exact Hnil].
      destruct o as [[] | c |]; [discriminate | discriminate | reflexivity].
Qed.

(** A second run over the clone of the README: the fetch of the source, the
    pulls and the pushes answer "already up to date", and the run ends
    normally. *)
Lemma errors_stop_the_run_witness :
  exists w' tr,
    main RefGit.lib Examples.readme Examples.synced = (Ret tt, w', tr)
    /\ In (EvCall (Worktree_Pull Examples.fooPath
                     (mkPullOptions "origin" "refs/heads/master" true true))
                  (Some NoErrAlreadyUpToDate)) tr
    /\ In (EvCall (Repository_Push Examples.fooPath
                     (branchPush (mkRemote "github" Examples.githubURL)
                                 "+refs/heads/master:refs/heads/main"))
                  (Some NoErrAlreadyUpToDate)) tr
    /\ forall pre e post, tr = pre ++ e :: post -> failedEvent e = false.
Proof.
  eexists _, _. split; [vm_compute; reflexivity |].
  split; [vm_compute; tauto |]. split; [vm_compute; tauto |].
  intros pre e post Htr.
  destruct (failedEvent e) eqn:He; [exfalso | reflexivity].
  match type of Htr with
  | ?t = _ =>
      destruct (errors_stop_the_run RefGit.lib Examples.readme Examples.synced
                  (Ret tt) _ t ltac:(vm_compute; reflexivity))
        as (_ & Hstop & _)
  end.
  destruct (Hstop pre e post Htr He) as [[Hx | Hx] _]; discriminate Hx.
Defined.

(** C6 as stated does not hold.  In the run over the fresh clone of the
    README the lookup of the target remote answers with the error "remote
    not found", which is not "already up to date", and the run goes on and
    ends normally.  With a target remote without a name the creation
    answers with an error as well, and the run still ends normally. *)
Lemma provisioning_errors_do_not_stop_the_run :
  main RefGit.lib Examples.readme Examples.fresh = Examples.readmeRun
  /\ fst (fst Examples.readmeRun) = Ret tt
  /\ pick (fun e => if erredEvent e then Some e else None) (snd Examples.readmeRun)
     = [EvCall (Repository_Remote Examples.fooPath "github")
               (Err (OtherError "remote not found"))]
  /\ exists w' tr,
       main RefGit.lib (mkRepoSync [Examples.nameless] ∅) Examples.bare = (Ret tt, w', tr)
       /\ pick (fun e => if erredEvent e then Some e else None) tr
          = [EvCall (Repository_Remote Examples.fooPath "")
                    (Err (OtherError "remote not found"));
             EvCall (Repository_CreateRemote Examples.fooPath
                       (mkRemoteConfig "" [Examples.githubURL]))
                    (Err (OtherError "remote config: empty name"))].
Proof.
  split; [vm_compute; reflexivity |]. split; [reflexivity |].
  split; [vm_compute; reflexivity |].
  eexists _, _. split; [vm_compute; reflexivity |]. vm_compute. reflexivity.
Qed.

(** ** The fetch loop (main.go, lines 149-177) *)

Lemma listedAfterFetch_any prev tr :
  listedAfterFetch None tr -> listedAfterFetch prev tr.
Proof.
  destruct tr as [| e tr]; [trivial |]. cbn. intros [H1 H2]. split; [| exact H2].
  destruct (listCallOf e); [| exact I]. destruct H1 as (err & Hn & _). discriminate Hn.
Qed.

Lemma listedAfterFetch_app prev t1 t2 :
  listedAfterFetch prev t1 -> listedAfterFetch None t2 ->
  listedAfterFetch prev (t1 ++ t2).
Proof.
  revert prev. induction t1 as [| e t1 IH]; intros prev H1 H2.
  - apply listedAfterFetch_any. exact H2.
  - cbn in *. destruct H1 as [H1 H1']. split; [exact H1 | apply IH; assumption].
Qed.

Lemma fetchedFirst_seq t1 en t2 :
  fetchedFirst Returned t1 -> fetchedFirst en t2 -> fetchedFirst en (t1 ++ t2).
Proof. apply listedAfterFetch_app. Qed.

Ltac close_fetched :=
  unfold fetchedFirst; cbn;
  repeat match goal with
         | |- _ /\ _ => split
         | |- True => exact I
         | |- exists err, Some (_, ?a) = Some (_, err) /\ _ =>
             exists a; split; [reflexivity | assumption]
         end.

Lemma fetched_collectBranches {W} (git : GitLib W) rs remote remoteRefs branchesToSync :
  holds (W := W) fetchedFirst (collectBranches rs remote remoteRefs branchesToSync).
Proof.
  apply holds_foldEach; [exact I | apply fetchedFirst_seq |].
  intros x s w o w' tr H. unfold collectBranch, bind, logf, ret in H.
  cbn -[String.append] in H. run_all H; close_fetched.
Qed.

Lemma fetched_fetchRemote {W} (git : GitLib W) rs remote branchesToSync :
  holds fetchedFirst (fetchRemote git rs remote branchesToSync).
Proof.
  intros w o w' tr H.
  unfold fetchRemote, bind, call, logf, ret, exit, panic, deref in H.
  cbn -[String.append] in H. run_all' H.
  all: try solve [close_fetched].
  all: close_fetched.
  all: exact (fetched_collectBranches git _ _ _ _ _ _ _ _ Ephase).
Qed.

Lemma fetched_fetchEverything {W} (git : GitLib W) rs remotes branchesToSync :
  holds fetchedFirst (fetchEverything git rs remotes branchesToSync).
Proof.
  apply holds_foldEach; [exact I | apply fetchedFirst_seq | intros; apply fetched_fetchRemote].
Qed.

Lemma fetched_provisionTarget {W} (git : GitLib W) rs repo :
  holds fetchedFirst (provisionTarget git rs repo).
Proof.
  intros w o w' tr H.
  unfold provisionTarget, bind, call, logf, ret, exit, panic, deref in H.
  cbn -[String.append] in H. run_all H; close_fetched.
Qed.

Lemma fetched_syncBranch {W} (git : GitLib W) repoSync rs repo remoteBranch :
  holds fetchedFirst (syncBranch git repoSync rs repo remoteBranch).
Proof. intros w o w' tr H. unfold_branch H. run_all H; close_fetched. Qed.

Lemma fetched_syncBranches {W} (git : GitLib W) repoSync rs repo branchesToSync :
  holds fetchedFirst (syncBranches git repoSync rs repo branchesToSync).
Proof.
  apply holds_forEach; [exact I | apply fetchedFirst_seq | intros; apply fetched_syncBranch].
Qed.

Lemma fetched_pushTag {W} (git : GitLib W) rs repo t :
  holds fetchedFirst (pushTag git rs repo t).
Proof.
  intros w o w' tr H.
  unfold pushTag, bind, call, logf, ret, exit, panic, deref in H.
  cbn -[String.append] in H. run_all H; close_fetched.
Qed.

Lemma fetched_pushEachTag {W} (git : GitLib W) rs repo tags :
  holds fetchedFirst (pushEachTag git rs repo tags).
Proof.
  apply holds_forEach; [exact I | apply fetchedFirst_seq | intros; apply fetched_pushTag].
Qed.

Ltac phase_fetched :=
  match goal with
  | E : _ = (?o, _, ?t) |- listedAfterFetch None ?t =>
      first [ exact (fetched_provisionTarget _ _ _ _ _ _ _ E)
            | exact (fetched_fetchEverything _ _ _ _ _ _ _ _ E)
            | exact (fetched_syncBranches _ _ _ _ _ _ _ _ _ E)
            | exact (fetched_pushEachTag _ _ _ _ _ _ _ _ E) ]
  end.

Ltac split_fetched :=
  unfold fetchedFirst;
  repeat (cbn;
          match goal with
          | |- _ /\ _ => split
          | |- True => exact I
          | |- listedAfterFetch _ (_ ++ _) =>
              apply listedAfterFetch_app; [apply listedAfterFetch_any; phase_fetched |]
          | |- listedAfterFetch (Some _) _ => apply listedAfterFetch_any
          | |- listedAfterFetch None ?t => is_var t; phase_fetched
          end).

Lemma fetched_syncRepo {W} (git : GitLib W) repoSync rs :
  holds fetchedFirst (syncRepo git repoSync rs).
Proof.
  intros w o w' tr H.
  unfold syncRepo, pushTags, bind, call, logf, ret, exit, panic in H.
  cbn -[String.append] in H. run_all' H.
  all: split_fetched.
Qed.

Lemma fetched_main {W} (git : GitLib W) repoSync :
  holds fetchedFirst (main git repoSync).
Proof.
  apply holds_forEach; [exact I | apply fetchedFirst_seq | intros; apply fetched_syncRepo].
Qed.

Lemma fetchAnswerOf_inv e remote err :
  fetchAnswerOf e = Some (remote, err) ->
  exists fo, e = EvCall (Remote_Fetch remote fo) err.
Proof.
  destruct e as [lvl fmt args | A c a]; [discriminate |].
  destruct c; cbn; try discriminate.
  intros H. inversion H; subst. eexists. reflexivity.
Qed.

Lemma listedAfterFetch_split prev tr pre remote answer post :
  listedAfterFetch prev tr ->
  tr = pre ++ EvCall (Remote_List remote) answer :: post ->
  (pre = [] /\ exists err, prev = Some (remote, err) /\ isFailure err = false)
  \/ exists pre' fo err,
       pre = pre' ++ [EvCall (Remote_Fetch remote fo) err] /\ isFailure err = false.
Proof.
  revert prev tr. induction pre as [| x pre IH]; intros prev tr H ->.
  - left. split; [reflexivity |]. cbn in H. exact (proj1 H).
  - right. cbn in H. destruct H as [_ H].
    destruct (IH _ _ H eq_refl) as [[-> (err & Hx & Hf)] | (pre' & fo & err & -> & Hf)].
    + apply fetchAnswerOf_inv in Hx as [fo ->]. exists [], fo, err. auto.
    + exists (x :: pre'), fo, err. auto.
Qed.

(** C5 (amended): the listing of the remote references is made right after
    the fetch of the same remote has ended without a failure, never before
    it: in every run, what precedes a [remote.List] call ends with the
    [remote.Fetch] call of that remote. *)
Theorem listing_follows_fetch {W} (git : GitLib W) repoSync w o w' tr :
  main git repoSync w = (o, w', tr) ->
  forall pre remote answer post,
    tr = pre ++ EvCall (Remote_List remote) answer :: post ->
    exists pre' fo err,
      pre = pre' ++ [EvCall (Remote_Fetch remote fo) err]
      /\ isFailure err = false
      /\ fetches pre <> [].
Proof.
  intros H pre remote answer post Htr.
  pose proof (fetched_main git repoSync _ _ _ _ H) as Hf.
  destruct (listedAfterFetch_split _ _ _ _ _ _ Hf Htr)
    as [[_ (err & Hn & _)] | (pre' & fo & err & -> & Hok)]; [discriminate Hn |].
  exists pre', fo, err. split; [reflexivity | split; [exact Hok |]].
  unfold fetches. rewrite pick_app. cbn. destruct (pick fetchOf pre'); discriminate.
Qed.

Lemma listing_follows_fetch_witness :
  main RefGit.lib Examples.readme Examples.fresh = Examples.readmeRun
  /\ snd Examples.readmeRun
     = firstn 8 (snd Examples.readmeRun)
       ++ EvCall (Remote_List (mkGitRemote Examples.fooPath Examples.origin))
                 (Ok Examples.advertised)
          :: skipn 9 (snd Examples.readmeRun)
  /\ fetches (firstn 8 (snd Examples.readmeRun)) <> [].
Proof.
  split; [vm_compute; reflexivity |]. split; [vm_compute; reflexivity |].
  destruct (listing_follows_fetch RefGit.lib Examples.readme Examples.fresh
              (Ret tt) (snd (fst Examples.readmeRun)) (snd Examples.readmeRun)
              ltac:(vm_compute; reflexivity)
              (firstn 8 (snd Examples.readmeRun))
              (mkGitRemote Examples.fooPath Examples.origin)
              (Ok Examples.advertised)
              (skipn 9 (snd Examples.readmeRun))
              ltac:(vm_compute; reflexivity))
    as (pre' & fo & err & _ & _ & Hne).
  exact Hne.
Defined.

(** C5 as stated does not hold: in the run over the fresh clone the source
    remote has been fetched when its references are listed. *)
Lemma listing_is_not_a_pre_fetch_snapshot :
  main RefGit.lib Examples.readme Examples.fresh = Examples.readmeRun
  /\ ~ listedBeforeAnyFetch (snd Examples.readmeRun).
Proof.
  split; [vm_compute; reflexivity |]. intros H.
  specialize (H (firstn 8 (snd Examples.readmeRun))
                (mkGitRemote Examples.fooPath Examples.origin)
                (Ok Examples.advertised)
                (skipn 9 (snd Examples.readmeRun))
                ltac:(vm_compute; reflexivity)).
  vm_compute in H. discriminate H.
Qed.

(** ** What the fetch loop returns *)

Lemma pick_logs {B} (f : Event -> option B) tr :
  (forall lvl fmt args, f (EvLog lvl fmt args) = None) ->
  Forall (fun e => isLog e = true) tr -> pick f tr = [].
Proof.
  intros Hf. induction 1 as [| e tr He _ IH]; [reflexivity |].
  destruct e as [lvl fmt args | A c a]; [| discriminate He].
  cbn. rewrite Hf. exact IH.
Qed.

Lemma collectBranches_run {W} rs remote remoteRefs branchesToSync (w : W) o w' tr :
  collectBranches rs remote remoteRefs branchesToSync w = (o, w', tr) ->
  o = Ret (branchesToSync ++ branchesOf remoteRefs)
  /\ w' = w
  /\ Forall (fun e => isLog e = true) tr.
Proof.
  unfold collectBranches. revert branchesToSync w o w' tr.
  induction remoteRefs as [| r refs IH]; intros acc w o w' tr H.
  - cbn in H. inversion H; subst. rewrite app_nil_r. auto.
  - cbn [foldEach] in H. unfold branchesOf. cbn [List.filter].
    unfold collectBranch at 1 in H. unfold bind, logf, ret in H.
    destruct (IsBranch (RefName r)) eqn:Eb.
    + cbn -[String.append] in H.
      destruct (foldEach (collectBranch rs remote) refs (acc ++ [r]) w)
        as [[o1 w1] t1] eqn:E.
      apply IH in E as (-> & -> & Hlogs). inversion H; subst.
      rewrite <- app_assoc. cbn. split; [reflexivity | split; [reflexivity |]].
      constructor; [reflexivity | exact Hlogs].
    + cbn -[String.append] in H.
      destruct (foldEach (collectBranch rs remote) refs acc w) as [[o1 w1] t1] eqn:E.
      apply IH in E as (-> & -> & Hlogs). inversion H; subst. auto.
Qed.

Lemma fetchRemote_run {W} (git : GitLib W) rs remote acc w bs w' tr source :
  SourceRemote rs = Some source ->
  fetchRemote git rs remote acc w = (Ret bs, w', tr) ->
  fetches tr = [fetchAll remote]
  /\ listCalls tr = List.filter (isSource source) [remote]
  /\ List.map fst (remoteListings tr) = List.filter (isSource source) [remote]
  /\ bs = acc ++ advertisedBranches tr.
Proof.
  intros Hs H.
  unfold fetchRemote, bind, call, logf, ret, exit, panic, deref in H.
  rewrite Hs in H. cbn -[String.append] in H. run_all' H.
  - apply collectBranches_run in Ephase as (Hbs & _ & Hlogs). inversion Hbs; subst.
    unfold fetches, listCalls, remoteListings, advertisedBranches. cbn.
    rewrite !(pick_logs _ t) by (trivial || exact Hlogs).
    unfold isSource. rewrite Eif0. cbn. rewrite app_nil_r. auto.
  - unfold fetches, listCalls, remoteListings, advertisedBranches. cbn.
    unfold isSource. rewrite Eif0. cbn. rewrite app_nil_r. auto.
Qed.

Lemma fetchEverything_run {W} (git : GitLib W) rs remotes acc w bs w' tr source :
  SourceRemote rs = Some source ->
  fetchEverything git rs remotes acc w = (Ret bs, w', tr) ->
  fetches tr = List.map fetchAll remotes
  /\ listCalls tr = List.filter (isSource source) remotes
  /\ List.map fst (remoteListings tr) = List.filter (isSource source) remotes
  /\ bs = acc ++ advertisedBranches tr.
Proof.
  intros Hs. unfold fetchEverything. revert acc w bs w' tr.
  induction remotes as [| remote remotes IH]; intros acc w bs w' tr H.
  - cbn in H. inversion H; subst. cbn. rewrite app_nil_r. auto.
  - cbn [foldEach] in H.
    apply bind_inv in H as [(bs1 & w1 & t1 & t2 & H1 & H2 & ->) | (o1 & _ & Hn & Ho)].
    + apply (fetchRemote_run _ _ _ _ _ _ _ _ _ Hs) in H1 as (Hf1 & Hl1 & Hr1 & ->).
      apply IH in H2 as (Hf2 & Hl2 & Hr2 & ->).
      unfold advertisedBranches, fetches, listCalls, remoteListings in *.
      rewrite !pick_app, Hf1, Hf2, Hl1, Hl2, map_app, Hr1, Hr2.
      rewrite flat_map_app, app_assoc.
      cbn. destruct (isSource source remote); auto.
    + destruct o1; [exfalso; eapply Hn; reflexivity | discriminate Ho | discriminate Ho].
Qed.



(** ** The parts of a run *)

Lemma madeOf_seq part t1 en t2 :
  madeOf part Returned t1 -> madeOf part en t2 -> madeOf part en (t1 ++ t2).
Proof. unfold madeOf. intros H1 H2. apply Forall_app. auto. Qed.

Ltac close_made := unfold madeOf; repeat constructor.

Lemma made_provisionTarget {W} (git : GitLib W) rs repo :
  holds (madeOf provisionEvent) (provisionTarget git rs repo).
Proof.
  intros w o w' tr H.
  unfold provisionTarget, bind, call, logf, ret, exit, panic, deref in H.
  cbn -[String.append] in H. run_all H; close_made.
Qed.

Lemma made_collectBranches {W} (git : GitLib W) rs remote remoteRefs branchesToSync :
  holds (W := W) (madeOf fetchEvent) (collectBranches rs remote remoteRefs branchesToSync).
Proof.
  apply holds_foldEach; [constructor | apply madeOf_seq |].
  intros x s w o w' tr H. unfold collectBranch, bind, logf, ret in H.
  cbn -[String.append] in H. run_all H; close_made.
Qed.

Lemma made_fetchRemote {W} (git : GitLib W) rs remote branchesToSync :
  holds (madeOf fetchEvent) (fetchRemote git rs remote branchesToSync).
Proof.
  intros w o w' tr H.
  unfold fetchRemote, bind, call, logf, ret, exit, panic, deref in H.
  cbn -[String.append] in H. run_all' H.
  all: try solve [close_made].
  all: unfold madeOf; repeat (constructor; [reflexivity |]).
  all: exact (made_collectBranches git _ _ _ _ _ _ _ _ Ephase).
Qed.

Lemma made_fetchEverything {W} (git : GitLib W) rs remotes branchesToSync :
  holds (madeOf fetchEvent) (fetchEverything git rs remotes branchesToSync).
Proof.
  apply holds_foldEach; [constructor | apply madeOf_seq | intros; apply made_fetchRemote].
Qed.

Lemma made_syncBranch {W} (git : GitLib W) repoSync rs repo remoteBranch :
  holds (madeOf branchEvent) (syncBranch git repoSync rs repo remoteBranch).
Proof. intros w o w' tr H. unfold_branch H. run_all H; close_made. Qed.

Lemma made_syncBranches {W} (git : GitLib W) repoSync rs repo branchesToSync :
  holds (madeOf branchEvent) (syncBranches git repoSync rs repo branchesToSync).
Proof.
  apply holds_forEach; [constructor | apply madeOf_seq | intros; apply made_syncBranch].
Qed.

Lemma made_pushTag {W} (git : GitLib W) rs repo t :
  holds (madeOf tagEvent) (pushTag git rs repo t).
Proof.
  intros w o w' tr H.
  unfold pushTag, bind, call, logf, ret, exit, panic, deref in H.
  cbn -[String.append] in H. run_all H; close_made.
Qed.

Lemma made_pushEachTag {W} (git : GitLib W) rs repo tags :
  holds (madeOf tagEvent) (pushEachTag git rs repo tags).
Proof.
  apply holds_forEach; [constructor | apply madeOf_seq | intros; apply made_pushTag].
Qed.

(** An observation that answers nothing on the events of a part picks
    nothing from a trace made of that part. *)
Lemma pick_none {B} (f : Event -> option B) (part : Event -> bool) tr :
  (forall e, part e = true -> f e = None) ->
  Forall (fun e => part e = true) tr -> pick f tr = [].
Proof.
  intros Hf. induction 1 as [| e tr He _ IH]; [reflexivity |].
  cbn. rewrite (Hf e He). exact IH.
Qed.

Ltac by_cases_on_call :=
  let e := fresh "e" in
  let c := fresh "c" in
  intros e; destruct e as [? ? ? | ? c ?]; [intros _; reflexivity |];
  destruct c; cbn; intros He; solve [reflexivity | discriminate He].

(** ** The plan (specification, section 4.1) *)

(** One branch: the steps made are a prefix of the steps of a create or of
    an update, and all of them when the iteration ends normally. *)
Lemma syncBranch_steps {W} (git : GitLib W) repoSync rs repo remoteBranch w o w' tr
  source target :
  SourceRemote rs = Some source -> TargetRemote rs = Some target ->
  syncBranch git repoSync rs repo remoteBranch w = (o, w', tr) ->
  exists decision more,
    steps tr ++ more = branchSteps repoSync source target remoteBranch decision
    /\ (o = Ret tt -> more = []).
Proof.
  intros Hs Ht H. unfold_branch H. rewrite ?Hs, ?Ht in H. cbn -[String.append] in H.
  run_all H.
  all: name_facts.
  all: unfold branchSteps, createCheckout, updateCheckout, requiredRefSpecStr.
  all: cbn -[String.append].
  all: first [ match goal with
               | Hn : RefName ?r = RefName _, Hf : _ = _ ++ ?r :: _ |- _ =>
                   exists (Some (RefHash r))
               end
             | exists None ].
  all: repeat match goal with
              | E : RefName _ = RefName _ |- _ => rewrite E; clear E
              | E : RefHash _ = RefHash _ |- _ => rewrite E; clear E
              end.
  all: eexists; split; [reflexivity | intros Ho; try discriminate Ho; reflexivity].
Qed.


Lemma createdBy_app created t1 t2 :
  createdBy created (t1 ++ t2)
  = match createdBy created t1 with
    | Some created' => createdBy created' t2
    | None => None
    end.
Proof.
  revert created. induction t1 as [| e t1 IH]; intros created; [reflexivity |].
  cbn. destruct (createdStep created e); [apply IH | reflexivity].
Qed.

(** A trace without branch listings and checkouts leaves the created
    branches as they are. *)
Lemma createdBy_same (part : Event -> bool) created tr :
  (forall e, part e = true -> forall cr, createdStep cr e = Some cr) ->
  Forall (fun e => part e = true) tr -> createdBy created tr = Some created.
Proof.
  intros Hp. induction 1 as [| e tr He _ IH]; [reflexivity |].
  cbn. rewrite (Hp e He). exact IH.
Qed.

Lemma inb_true name names : inb name names = true <-> In name names.
Proof.
  unfold inb. rewrite existsb_exists. split.
  - intros (x & Hx & He). apply String.eqb_eq in He. subst. exact Hx.
  - intros H. exists name. split; [exact H | apply String.eqb_refl].
Qed.

(** One branch on a repository where every listed branch is one the run
    created: the branch is created. *)
Lemma syncBranch_creates {W} (git : GitLib W) repoSync rs repo remoteBranch w w' tr
  source target created created' :
  SourceRemote rs = Some source -> TargetRemote rs = Some target ->
  syncBranch git repoSync rs repo remoteBranch w = (Ret tt, w', tr) ->
  createdBy created tr = Some created' ->
  ~ In (RefName remoteBranch) created ->
  steps tr = branchSteps repoSync source target remoteBranch None
  /\ created' = RefName remoteBranch :: created.
Proof.
  intros Hs Ht H Hc Hfresh. unfold_branch H. rewrite ?Hs, ?Ht in H.
  cbn -[String.append] in H. run_all H.
  all: cbn in Hc.
  all: repeat match type of Hc with
              | context [if ?b then _ else _] =>
                  let E := fresh "Elist" in destruct b eqn:E; cbn in Hc
              end.
  all: try discriminate Hc.
  all: inversion Hc; subst; clear Hc.
  all: name_facts.
  all: try (exfalso; apply Hfresh;
            match goal with
            | Hn : RefName ?r = RefName _, Hf : ?l = _ ++ ?r :: _,
              El : forallb _ ?l = true |- _ =>
                rewrite <- Hn; apply inb_true;
                rewrite forallb_forall in El; apply El; rewrite Hf; apply in_elt
            end).
  all: unfold branchSteps, createCheckout, requiredRefSpecStr; cbn -[String.append].
  all: repeat match goal with
              | E : RefName _ = RefName _ |- _ => rewrite E; clear E
              | E : RefHash _ = RefHash _ |- _ => rewrite E; clear E
              end.
  all: split; reflexivity.
Qed.

Lemma steps_app t1 t2 : steps (t1 ++ t2) = steps t1 ++ steps t2.
Proof. apply pick_app. Qed.

Lemma syncBranches_steps {W} (git : GitLib W) repoSync rs repo branchesToSync w o w' tr
  source target :
  SourceRemote rs = Some source -> TargetRemote rs = Some target ->
  syncBranches git repoSync rs repo branchesToSync w = (o, w', tr) ->
  exists decisions more,
    length decisions = length branchesToSync
    /\ steps tr ++ more
       = flat_map (fun b => branchSteps repoSync source target (fst b) (snd b))
                  (combine branchesToSync decisions)
    /\ (o = Ret tt -> more = []).
Proof.
  intros Hs Ht. unfold syncBranches, forEach. revert w o w' tr.
  induction branchesToSync as [| r bs IH]; intros w o w' tr H.
  - cbn in H. inversion H; subst. exists [], []. auto.
  - cbn [foldEach] in H.
    apply bind_inv in H as [([] & w1 & t1 & t2 & H1 & H2 & ->) | (o1 & H1 & Hn & ->)].
    + destruct (syncBranch_steps _ _ _ _ _ _ _ _ _ _ _ Hs Ht H1) as (d & m1 & Hd & Hm1).
      rewrite (Hm1 eq_refl), app_nil_r in Hd.
      destruct (IH _ _ _ _ H2) as (ds & more & Hlen & Hsteps & Hret).
      exists (d :: ds), more. split; [cbn; rewrite Hlen; reflexivity |].
      split; [| exact Hret].
      rewrite steps_app, <- app_assoc, Hsteps, Hd. reflexivity.
    + destruct (syncBranch_steps _ _ _ _ _ _ _ _ _ _ _ Hs Ht H1) as (d & m1 & Hd & _).
      exists (d :: repeat None (length bs)),
             (m1 ++ flat_map (fun b => branchSteps repoSync source target (fst b) (snd b))
                             (combine bs (repeat None (length bs)))).
      split; [cbn; rewrite repeat_length; reflexivity |].
      split; [cbn; rewrite app_assoc, Hd; reflexivity |].
      intros Ho. exfalso. destruct o1; [eapply Hn; reflexivity | discriminate Ho | discriminate Ho].
Qed.

Lemma syncBranches_creates {W} (git : GitLib W) repoSync rs repo branchesToSync w w' tr
  source target created created' :
  SourceRemote rs = Some source -> TargetRemote rs = Some target ->
  syncBranches git repoSync rs repo branchesToSync w = (Ret tt, w', tr) ->
  createdBy created tr = Some created' ->
  (forall r, In r branchesToSync -> ~ In (RefName r) created) ->
  List.NoDup (List.map RefName branchesToSync) ->
  steps tr
  = flat_map (fun r => branchSteps repoSync source target r None) branchesToSync.
Proof.
  intros Hs Ht. unfold syncBranches, forEach. revert w w' tr created.
  induction branchesToSync as [| r bs IH]; intros w w' tr created H Hc Hfresh Hnd.
  - cbn in H. inversion H; subst. reflexivity.
  - cbn [foldEach] in H.
    apply bind_inv in H as [([] & w1 & t1 & t2 & H1 & H2 & ->) | (o1 & H1 & Hn & Ho)].
    + rewrite createdBy_app in Hc.
      destruct (createdBy created t1) as [c1 |] eqn:Ec1; [| discriminate Hc].
      destruct (syncBranch_creates _ _ _ _ _ _ _ _ _ _ _ _ Hs Ht H1 Ec1
                  (Hfresh r (or_introl eq_refl))) as [Hst ->].
      rewrite steps_app, Hst. cbn [flat_map]. f_equal.
      inversion Hnd as [| ? ? Hnotin Hnd']; subst.
      apply (IH _ _ _ _ H2 Hc); [| exact Hnd'].
      intros r' Hr' [Heq | Hin].
      * apply Hnotin. rewrite Heq. apply in_map. exact Hr'.
      * exact (Hfresh r' (or_intror Hr') Hin).
    + exfalso. destruct o1; [eapply Hn; reflexivity | discriminate Ho | discriminate Ho].
Qed.

Lemma pushTag_steps {W} (git : GitLib W) rs repo t w o w' tr target :
  TargetRemote rs = Some target ->
  pushTag git rs repo t w = (o, w', tr) ->
  exists more,
    steps tr ++ more = [StepPush (tagPush target t)] /\ (o = Ret tt -> more = []).
Proof.
  intros Ht H. unfold pushTag, bind, call, logf, ret, exit, panic, deref in H.
  rewrite Ht in H. cbn -[String.append] in H. run_all H.
  all: eexists; split; [reflexivity | intros Ho; try discriminate Ho; reflexivity].
Qed.

Lemma pushEachTag_steps {W} (git : GitLib W) rs repo tags w o w' tr target :
  TargetRemote rs = Some target ->
  pushEachTag git rs repo tags w = (o, w', tr) ->
  exists more,
    steps tr ++ more = List.map (fun t => StepPush (tagPush target t)) tags
    /\ (o = Ret tt -> more = []).
Proof.
  intros Ht. unfold pushEachTag, forEach. revert w o w' tr.
  induction tags as [| t tags IH]; intros w o w' tr H.
  - cbn in H. inversion H; subst. exists []. auto.
  - cbn [foldEach] in H.
    apply bind_inv in H as [([] & w1 & t1 & t2 & H1 & H2 & ->) | (o1 & H1 & Hn & ->)].
    + destruct (pushTag_steps _ _ _ _ _ _ _ _ _ Ht H1) as (m1 & Hd & Hm1).
      rewrite (Hm1 eq_refl), app_nil_r in Hd.
      destruct (IH _ _ _ _ H2) as (more & Hsteps & Hret).
      exists more. split; [| exact Hret].
      rewrite steps_app, <- app_assoc, Hsteps, Hd. reflexivity.
    + destruct (pushTag_steps _ _ _ _ _ _ _ _ _ Ht H1) as (m1 & Hd & _).
      exists (m1 ++ List.map (fun t => StepPush (tagPush target t)) tags).
      split; [cbn; rewrite app_assoc, Hd; reflexivity |].
      intros Ho. exfalso. destruct o1; [eapply Hn; reflexivity | discriminate Ho | discriminate Ho].
Qed.

Ltac footprints :=
  try match goal with
      | E : provisionTarget _ _ _ _ = _ |- _ =>
          pose proof (made_provisionTarget _ _ _ _ _ _ _ E) as Fprov
      end;
  try match goal with
      | E : fetchEverything _ _ _ _ _ = _ |- _ =>
          pose proof (made_fetchEverything _ _ _ _ _ _ _ _ E) as Ffetch
      end;
  try match goal with
      | E : syncBranches _ _ _ _ _ _ = _ |- _ =>
          pose proof (made_syncBranches _ _ _ _ _ _ _ _ _ E) as Fbranch
      end;
  try match goal with
      | E : pushEachTag _ _ _ _ _ = _ |- _ =>
          pose proof (made_pushEachTag _ _ _ _ _ _ _ _ E) as Ftag
      end;
  unfold madeOf in *.

Ltac by_cases_on_call' :=
  let e := fresh "e" in
  let c := fresh "c" in
  intros e; destruct e as [? ? ? | ? c ?]; [intros _ ?; reflexivity |];
  destruct c; cbn; intros He ?; solve [reflexivity | discriminate He].

(** Observations of a whole run, from the observations of its parts. *)
Ltac observe f :=
  repeat (cbn [pick f]; rewrite ?pick_app);
  repeat match goal with
         | F : Forall (fun e => ?part e = true) ?t |- context [pick f ?t] =>
             rewrite (pick_none f part t) by (by_cases_on_call || exact F)
         end;
  cbn [app].

Lemma plan_nil repoSync source target (bs : list Reference) :
  plan repoSync source target (combine bs []) [] = [].
Proof. rewrite combine_nil. reflexivity. Qed.

Lemma plan_creates repoSync source target (bs : list Reference) tags :
  plan repoSync source target (List.map (fun r => (r, None)) bs) tags
  = flat_map (fun r => branchSteps repoSync source target r None) bs
    ++ List.map (fun t => StepPush (tagPush target t)) tags.
Proof.
  unfold plan. f_equal. induction bs as [| r bs IH]; [reflexivity |].
  cbn [List.map flat_map fst snd]. rewrite IH. reflexivity.
Qed.

(** C3: the calls of a run on one repository that change the work tree or a
    remote follow the plan: for every branch that the listing of the source
    remote advertised, in the order advertised, one checkout (create or
    update) with its pull and reset, then one push of that branch; after
    the last branch one push per tag.  A run that ends normally has made
    the whole plan, with one decision per branch; a run that stops has made
    a prefix of it.  When every branch that a local listing reports is one
    that the run itself created, as on a repository without local branches,
    and the advertised names are distinct, every checkout is a create:
    N creates and N branch pushes for N remote branches. *)
Theorem run_follows_plan {W} (git : GitLib W) repoSync rs w o w' tr source target :
  SourceRemote rs = Some source -> TargetRemote rs = Some target ->
  syncRepo git repoSync rs w = (o, w', tr) ->
  exists decisions tags more,
    steps tr ++ more
    = plan repoSync source target (combine (advertisedBranches tr) decisions) tags
    /\ (o = Ret tt ->
        more = []
        /\ length decisions = length (advertisedBranches tr)
        /\ tagsRead tr = [tags]
        /\ (List.NoDup (List.map RefName (advertisedBranches tr)) ->
            createdBy [] tr <> None ->
            steps tr
            = plan repoSync source target
                   (List.map (fun r => (r, None)) (advertisedBranches tr)) tags)).
Proof.
  intros Hs Ht H.
  unfold syncRepo, pushTags, bind, call, logf, ret, exit, panic in H.
  cbn -[String.append] in H. run_all' H.
  all: repeat match goal with u : unit |- _ => destruct u end.
  all: footprints.
  all: try (destruct (fetchEverything_run _ _ _ _ _ _ _ _ _ Hs Ephase0)
             as (_ & _ & _ & Hbs);
            cbn [app] in Hbs; unfold advertisedBranches, remoteListings in Hbs).
  all: try (destruct (syncBranches_steps _ _ _ _ _ _ _ _ _ _ _ Hs Ht Ephase1)
             as (ds & mb & Hlen & Hsb & Hrb); unfold steps in Hsb).
  all: try (destruct (pushEachTag_steps _ _ _ _ _ _ _ _ _ Ht Ephase2)
             as (mt & Hst & Hrt); unfold steps in Hst).
  all: unfold steps, advertisedBranches, remoteListings, tagsRead.
  all: observe stepOf; observe remoteListingOf; observe tagsOf.
  all: rewrite ?app_nil_r; try rewrite <- Hbs.
  (* the tag loop was reached *)
  1-3: exists ds, a4, mt; rewrite (Hrb eq_refl), app_nil_r in Hsb;
       split; [unfold plan; rewrite <- app_assoc, Hst, Hsb; reflexivity |].
  (* the tag listing failed *)
  4: exists ds, [], []; rewrite (Hrb eq_refl), app_nil_r in Hsb;
     split; [unfold plan; cbn [List.map]; rewrite !app_nil_r; exact Hsb |].
  (* the branch loop stopped *)
  5-6: exists ds, [], mb;
       split; [unfold plan; cbn [List.map]; rewrite app_nil_r; exact Hsb |].
  (* nothing was reconciled *)
  7-12: exists [], [], []; split; [rewrite plan_nil; reflexivity |].
  all: intros Ho; try discriminate Ho.
  rewrite (Hrt eq_refl). split; [reflexivity |]. split; [exact Hlen |].
  split; [reflexivity |]. intros Hnd Hcreated.
  rewrite plan_creates.
  rewrite (Hrt eq_refl), app_nil_r in Hst. rewrite Hst. f_equal.
  cbn [createdBy createdStep] in Hcreated.
  rewrite createdBy_app, (createdBy_same provisionEvent [] t) in Hcreated
    by (by_cases_on_call' || exact Fprov).
  cbn beta iota in Hcreated.
  rewrite createdBy_app, (createdBy_same fetchEvent [] t0) in Hcreated
    by (by_cases_on_call' || exact Ffetch).
  cbn [createdBy createdStep] in Hcreated.
  rewrite createdBy_app in Hcreated.
  destruct (createdBy [] t1) as [c1 |] eqn:Ec1; [| exfalso; apply Hcreated; reflexivity].
  apply (syncBranches_creates _ _ _ _ _ _ _ _ _ _ _ _ Hs Ht Ephase1 Ec1);
    [intros r _ [] | exact Hnd].
Qed.

Lemma branch_pushes_follow_no_tags tr :
  Forall (fun e => branchEvent e = true) tr ->
  Forall (fun p => PushFollowTags p = false) (pushes tr).
Proof.
  induction 1 as [| e tr He _ IH]; [constructor |].
  destruct e as [lvl fmt args | A c a]; [exact IH |].
  destruct c; try exact IH; try discriminate He.
  cbn. constructor; [| exact IH]. cbn in He. apply negb_true_iff. exact He.
Qed.

Ltac reached_tags :=
  let Htags := fresh "Htags" in
  intros Htags; inversion Htags; subst; clear Htags;
  match goal with
  | Ht : TargetRemote _ = Some _,
    E : pushEachTag _ ?rs ?a _ _ = (_, _, ?t2),
    Eb : syncBranches _ _ _ _ ?a2 _ = (_, _, ?t1),
    Ef : fetchEverything _ _ ?a0 _ _ = (_, _, ?t0),
    Ep : provisionTarget _ _ _ _ = (_, _, ?t) |- _ =>
      let mt := fresh "mt" in
      let Hst := fresh "Hst" in
      let Hrt := fresh "Hrt" in
      destruct (pushEachTag_steps _ _ _ _ _ _ _ _ _ Ht E) as (mt & Hst & Hrt);
      exists (EvLog InfoLevel "Opening %s..." [AStr (Path rs)]
              :: EvCall (git_PlainOpen (Path rs)) (Ok a)
              :: EvCall (Repository_Remotes a) (Ok a0)
              :: t ++ t0 ++ EvLog InfoLevel "Branches to sync: %v" [ARefs a2] :: t1),
             a, t2, mt;
      split; [repeat (cbn [app]; rewrite <- ?app_assoc); reflexivity |];
      split; [| split; [exact Hst | exact Hrt]];
      unfold pushes; observe pushOf; apply branch_pushes_follow_no_tags; assumption
  end.

(** C9: a run on one repository that ends normally has read the tags, and
    whenever the tags have been read (which is after the branch loop), no
    push with [FollowTags] came before, and what follows is one forced push
    per tag with the ref-spec [+refs/tags/<short>:refs/tags/<short>] to the
    target remote, in the order of the listing, up to the first push that
    fails, and all of them when the run ends normally.  The branch mapping
    has no part in the ref-spec, and nothing is asked of the branches. *)
Theorem tags_pushed_after_branches {W} (git : GitLib W) repoSync rs w o w' tr target :
  TargetRemote rs = Some target ->
  syncRepo git repoSync rs w = (o, w', tr) ->
  (o = Ret tt -> exists tags, tagsRead tr = [tags])
  /\ forall tags,
       tagsRead tr = [tags] ->
       exists pre repo post more,
         tr = pre ++ EvCall (Repository_Tags repo) (Ok tags) :: post
         /\ Forall (fun p => PushFollowTags p = false) (pushes pre)
         /\ steps post ++ more
            = List.map
                (fun t =>
                   StepPush
                     (mkPushOptions
                        (Name target)
                        ["+refs/tags/" +:+ Short (RefName t) +:+
                         ":refs/tags/" +:+ Short (RefName t)]
                        true false true))
                tags
         /\ (o = Ret tt -> more = []).
Proof.
  intros Ht H.
  unfold syncRepo, pushTags, bind, call, logf, ret, exit, panic in H.
  cbn -[String.append] in H. run_all' H.
  all: repeat match goal with u : unit |- _ => destruct u end.
  all: footprints.
  all: split; [intros Ho; try discriminate Ho | intros tags Htags].
  all: unfold tagsRead in *.
  all: try (revert Htags).
  all: observe tagsOf.
  all: try (intros Htags; discriminate Htags).
  - eexists. reflexivity.
  - reached_tags.
  - reached_tags.
  - reached_tags.
Qed.

(** ** Which remotes are fetched and which are matched *)

Lemma syncBranch_checkouts {W} (git : GitLib W) repoSync rs repo remoteBranch w o w' tr :
  syncBranch git repoSync rs repo remoteBranch w = (o, w', tr) ->
  Forall (fun co => CoBranch co = RefName remoteBranch) (checkouts tr).
Proof.
  intros H. unfold_branch H. run_all H.
  all: name_facts; unfold checkouts; cbn; repeat constructor; cbn; congruence.
Qed.

Lemma syncBranches_checkouts {W} (git : GitLib W) repoSync rs repo branchesToSync
  w o w' tr :
  syncBranches git repoSync rs repo branchesToSync w = (o, w', tr) ->
  Forall (fun co => In (CoBranch co) (List.map RefName branchesToSync)) (checkouts tr).
Proof.
  unfold syncBranches, forEach. revert w o w' tr.
  induction branchesToSync as [| r bs IH]; intros w o w' tr H.
  - cbn in H. inversion H; subst. constructor.
  - cbn [foldEach] in H.
    assert (Hfirst : forall w1 o1 w2 t1,
               syncBranch git repoSync rs repo r w1 = (o1, w2, t1) ->
               Forall (fun co => In (CoBranch co) (List.map RefName (r :: bs)))
                      (checkouts t1)).
    { intros w1 o1 w2 t1 H1. apply syncBranch_checkouts in H1.
      eapply List.Forall_impl; [| exact H1]. cbn. intros co ->. left. reflexivity. }
    apply bind_inv in H as [([] & w1 & t1 & t2 & H1 & H2 & ->) | (o1 & H1 & _ & _)].
    + unfold checkouts. rewrite pick_app. apply Forall_app. split.
      * exact (Hfirst _ _ _ _ H1).
      * eapply List.Forall_impl; [| exact (IH _ _ _ _ H2)]. cbn. intros co Hco. right. exact Hco.
    + exact (Hfirst _ _ _ _ H1).
Qed.

Lemma tag_pushes_follow_tags tr :
  Forall (fun e => tagEvent e = true) tr ->
  Forall (fun p => PushFollowTags p = true) (pushes tr).
Proof.
  induction 1 as [| e tr He _ IH]; [constructor |].
  destruct e as [lvl fmt args | A c a]; [exact IH |].
  destruct c; try exact IH; try discriminate He.
  cbn. constructor; [exact He | exact IH].
Qed.

Lemma filter_none source remotes :
  (forall remote, In remote remotes -> CfgName (Config remote) <> Name source) ->
  List.filter (isSource source) remotes = [].
Proof.
  induction remotes as [| r l IH]; intros Hnone; [reflexivity |].
  cbn. unfold isSource at 1.
  destruct (streq (CfgName (Config r)) (Name source)) eqn:E.
  - apply streq_eq in E. exfalso. exact (Hnone r (or_introl eq_refl) E).
  - apply IH. intros x Hx. apply Hnone. right. exact Hx.
Qed.

Lemma listsOnly_seq source t1 en t2 :
  listsOnly source Returned t1 -> listsOnly source en t2 ->
  listsOnly source en (t1 ++ t2).
Proof.
  unfold listsOnly, listCalls. intros H1 H2. rewrite pick_app.
  apply Forall_app. auto.
Qed.

Lemma listsOnly_fetchRemote {W} (git : GitLib W) rs remote branchesToSync source :
  SourceRemote rs = Some source ->
  holds (listsOnly source) (fetchRemote git rs remote branchesToSync).
Proof.
  intros Hs w o w' tr H.
  unfold fetchRemote, bind, call, logf, ret, exit, panic, deref in H.
  rewrite Hs in H. cbn -[String.append] in H. run_all' H.
  all: try (apply collectBranches_run in Ephase as (_ & _ & Hlogs)).
  all: unfold listsOnly, listCalls; cbn.
  all: rewrite ?(pick_logs listCallOf t) by (trivial || exact Hlogs).
  all: repeat constructor; assumption.
Qed.

Lemma listsOnly_fetchEverything {W} (git : GitLib W) rs remotes branchesToSync source :
  SourceRemote rs = Some source ->
  holds (listsOnly source) (fetchEverything git rs remotes branchesToSync).
Proof.
  intros Hs. apply holds_foldEach;
    [constructor | apply listsOnly_seq | intros; apply listsOnly_fetchRemote; exact Hs].
Qed.

Lemma plain_part (part : Event -> bool) tr :
  (forall e, part e = true -> isConsistencyLog e = false) ->
  Forall (fun e => part e = true) tr ->
  Forall (fun e => isConsistencyLog e = false) tr.
Proof. intros Hp. apply List.Forall_impl. exact Hp. Qed.

Ltac plain_event :=
  let e := fresh "e" in
  let c := fresh "c" in
  intros e; destruct e as [? ? ? | ? c ?]; [| intros _; reflexivity];
  cbn; intros He; apply negb_true_iff in He; exact He.

(** A trace whose parts are provisioning, fetching and tag pushes holds no
    line of the consistency check. *)
Ltac plain_trace :=
  repeat first
    [ apply List.Forall_nil
    | apply List.Forall_cons; [reflexivity |]
    | apply List.Forall_app; split
    | match goal with
      | F : Forall (fun e => ?part e = true) ?t
        |- Forall (fun e => isConsistencyLog e = false) ?t =>
          apply (plain_part part t); [plain_event | exact F]
      end ].

Lemma no_consistency_line tr pre args :
  Forall (fun e => isConsistencyLog e = false) tr ->
  tr = pre ++ [EvLog ErrorLevel consistencyFmt args] -> False.
Proof.
  intros H ->. apply Forall_app in H as [_ H]. inversion H as [| ? ? He _]; subst.
  vm_compute in He. discriminate He.
Qed.

(** C7 (amended): a run that ends normally has fetched every remote that
    [repo.Remotes()] listed at its start, in that order, and has listed the
    references of exactly those among them that bear the name of the source
    remote; no run lists the references of a remote with another name;
    every checkout of a run is of a branch that a listing advertised; and
    when no listed remote bears the name of the source remote there is no
    checkout, no pull, no reset and no push of a branch, and the run ends
    normally unless a library call fails or the target remote is nil. *)
Theorem only_source_remote_is_matched {W} (git : GitLib W) repoSync rs w o w' tr
  source remotes :
  SourceRemote rs = Some source ->
  syncRepo git repoSync rs w = (o, w', tr) ->
  remotesRead tr = [remotes] ->
  (o = Ret tt ->
   fetches tr = List.map fetchAll remotes
   /\ List.map fst (remoteListings tr) = List.filter (isSource source) remotes)
  /\ Forall (fun remote => isSource source remote = true) (listCalls tr)
  /\ Forall (fun co => In (CoBranch co) (List.map RefName (advertisedBranches tr)))
            (checkouts tr)
  /\ ((forall remote, In remote remotes -> CfgName (Config remote) <> Name source) ->
      checkouts tr = [] /\ pulls tr = [] /\ resets tr = []
      /\ Forall (fun p => PushFollowTags p = true) (pushes tr)
      /\ ((forall e, In e tr -> failedEvent e = false) ->
          TargetRemote rs <> None -> o = Ret tt)).
Proof.
  intros Hs H Hrem.
  pose proof (stopping_syncRepo git repoSync rs _ _ _ _ H) as Hstop.
  unfold syncRepo, pushTags, bind, call, logf, ret, exit, panic in H.
  cbn -[String.append] in H. run_all' H.
  all: repeat match goal with u : unit |- _ => destruct u end.
  all: footprints.
  all: unfold remotesRead in Hrem; revert Hrem; observe remotesOf; intros Hrem.
  all: try discriminate Hrem.
  all: inversion Hrem; subst; clear Hrem.
  all: try (pose proof (listsOnly_fetchEverything _ _ _ _ _ Hs _ _ _ _ Ephase0) as Hlist;
            unfold listsOnly, listCalls in Hlist).
  all: try (destruct (fetchEverything_run _ _ _ _ _ _ _ _ _ Hs Ephase0)
             as (Hf & _ & Hr & Hbs);
            cbn [app] in Hbs; unfold advertisedBranches, remoteListings in Hbs, Hr;
            unfold fetches in Hf).
  all: try (pose proof (syncBranches_checkouts _ _ _ _ _ _ _ _ _ Ephase1) as Hco;
            unfold checkouts in Hco).
  all: unfold fetches, advertisedBranches, remoteListings, listCalls, checkouts, pulls,
         resets, pushes.
  all: observe fetchOf; observe remoteListingOf; observe listCallOf; observe checkoutOf;
       observe pullOf; observe resetOf; observe pushOf.
  all: rewrite ?app_nil_r; try rewrite <- Hbs.
  all: split; [intros Ho; try discriminate Ho; split; assumption |].
  all: split; [first [exact Hlist | constructor] |].
  all: split; [first [exact Hco | constructor] |].
  all: intros Hnone.
  all: try (rewrite (filter_none _ _ Hnone) in Hr;
            destruct (pick remoteListingOf t0); [| discriminate Hr];
            cbn in Hbs; subst a2).
  all: try (unfold syncBranches, forEach in Ephase1; cbn in Ephase1;
            inversion Ephase1; subst; cbn).
  all: repeat (split; [first [reflexivity | constructor
                             | apply (tag_pushes_follow_tags _ Ftag)] |]).
  all: intros Hclean Htarget.
  all: destruct (stopsOnlyOnError_clean _ _ _ Hstop Hclean)
         as [Hret | [[_ (pre & args & Hlast)] | [_ [Hnil | Hnil]]]].
  all: try reflexivity; try discriminate Hret.
  all: try (exfalso; rewrite Hs in Hnil; discriminate Hnil).
  all: try (exfalso; exact (Htarget Hnil)).
  all: exfalso; refine (no_consistency_line _ _ _ _ Hlast); plain_trace.
Qed.

Lemma run_follows_plan_witness :
  SourceRemote Examples.foo = Some (mkRemote "origin" "")
  /\ TargetRemote Examples.foo = Some (mkRemote "github" Examples.githubURL)
  /\ syncRepo RefGit.lib Examples.readme Examples.foo Examples.fresh = Examples.readmeRun
  /\ steps (snd Examples.readmeRun)
     = plan Examples.readme (mkRemote "origin" "") (mkRemote "github" Examples.githubURL)
            [(Examples.master "abc123", None); (Examples.develop "def456", None)]
            [Examples.v1].
Proof.
  split; [reflexivity |]. split; [reflexivity |]. split; [vm_compute; reflexivity |].
  destruct (run_follows_plan RefGit.lib Examples.readme Examples.foo Examples.fresh
              (Ret tt) (snd (fst Examples.readmeRun)) (snd Examples.readmeRun)
              (mkRemote "origin" "") (mkRemote "github" Examples.githubURL)
              eq_refl eq_refl ltac:(vm_compute; reflexivity))
    as (decisions & tags & more & _ & Hret).
  destruct (Hret eq_refl) as (_ & _ & Htags & Hcreates).
  change (tagsRead (snd Examples.readmeRun)) with [[Examples.v1]] in Htags.
  inversion Htags; subst tags.
  change (advertisedBranches (snd Examples.readmeRun))
    with [Examples.master "abc123"; Examples.develop "def456"] in Hcreates.
  apply Hcreates.
  - repeat constructor; cbn; intuition discriminate.
  - vm_compute. discriminate.
Defined.

Lemma tags_pushed_after_branches_witness :
  TargetRemote Examples.foo = Some (mkRemote "github" Examples.githubURL)
  /\ syncRepo RefGit.lib Examples.readme Examples.foo Examples.fresh = Examples.readmeRun
  /\ tagsRead (snd Examples.readmeRun) = [[Examples.v1]]
  /\ exists pre repo post,
       snd Examples.readmeRun = pre ++ EvCall (Repository_Tags repo) (Ok [Examples.v1]) :: post
       /\ steps post
          = [StepPush (mkPushOptions "github" ["+refs/tags/v1:refs/tags/v1"]
                                     true false true)].
Proof.
  split; [reflexivity |]. split; [vm_compute; reflexivity |].
  split; [vm_compute; reflexivity |].
  destruct (tags_pushed_after_branches RefGit.lib Examples.readme Examples.foo
              Examples.fresh (Ret tt) (snd (fst Examples.readmeRun))
              (snd Examples.readmeRun) (mkRemote "github" Examples.githubURL)
              eq_refl ltac:(vm_compute; reflexivity))
    as [_ Hall].
  destruct (Hall [Examples.v1] ltac:(vm_compute; reflexivity))
    as (pre & repo & post & more & Htr & _ & Hst & Hret).
  rewrite (Hret eq_refl), app_nil_r in Hst.
  exists pre, repo, post. split; [exact Htr |].
  rewrite Hst. vm_compute. reflexivity.
Defined.

Lemma only_source_remote_is_matched_witness :
  SourceRemote Examples.foo = Some (mkRemote "origin" "")
  /\ syncRepo RefGit.lib Examples.readme Examples.foo Examples.fresh = Examples.readmeRun
  /\ remotesRead (snd Examples.readmeRun)
     = [[mkGitRemote Examples.fooPath Examples.origin]]
  /\ fetches (snd Examples.readmeRun)
     = [fetchAll (mkGitRemote Examples.fooPath Examples.origin)].
Proof.
  split; [reflexivity |]. split; [vm_compute; reflexivity |].
  split; [vm_compute; reflexivity |].
  destruct (only_source_remote_is_matched RefGit.lib Examples.readme Examples.foo
              Examples.fresh (Ret tt) (snd (fst Examples.readmeRun))
              (snd Examples.readmeRun) (mkRemote "origin" "")
              [mkGitRemote Examples.fooPath Examples.origin]
              eq_refl ltac:(vm_compute; reflexivity) ltac:(vm_compute; reflexivity))
    as [Hret _].
  exact (proj1 (Hret eq_refl)).
Defined.

(** C7 as stated does not hold: the target remote that provisioning adds is
    a remote of the repository when the fetch loop runs, and it is not
    fetched, because the loop goes over the remotes listed before. *)
Lemma created_target_remote_is_not_fetched :
  syncRepo RefGit.lib Examples.readme Examples.foo Examples.fresh = Examples.readmeRun
  /\ fst (fst Examples.readmeRun) = Ret tt
  /\ (exists w1 t,
        provisionTarget RefGit.lib Examples.foo Examples.fooPath Examples.fresh
        = (Ret tt, w1, t)
        /\ fst (RefGit.lib _ (Repository_Remotes Examples.fooPath) w1)
           = Ok [mkGitRemote Examples.fooPath Examples.origin;
                 mkGitRemote Examples.fooPath Examples.github])
  /\ List.map fst (fetches (snd Examples.readmeRun))
     = [mkGitRemote Examples.fooPath Examples.origin].
Proof.
  split; [vm_compute; reflexivity |]. split; [reflexivity |].
  split; [eexists _, _; split; vm_compute; reflexivity |].
  vm_compute. reflexivity.
Qed.

(** ** Reading the input (main.go, lines 55-72) *)

(** The naming loop, whatever map it starts from. *)
Lemma nameRepos_fold (m0 repos : gmap string (option Repo)) :
  match map_fold
          (fun k v named =>
             match named, v with
             | Some m, Some r => Some (<[k := Some (setName k r)]> m)
             | _, _ => None
             end)
          (Some m0) repos with
  | Some named =>
      (forall k, named !! k = match repos !! k with
                              | Some v => Some (setName k <$> v)
                              | None => m0 !! k
                              end)
      /\ forall k, repos !! k <> Some None
  | None => exists k, repos !! k = Some None
  end.
Proof.
  apply (map_fold_weak_ind
           (fun r (m : gmap string (option Repo)) =>
              match r with
              | Some named =>
                  (forall k, named !! k = match m !! k with
                                          | Some v => Some (setName k <$> v)
                                          | None => m0 !! k
                                          end)
                  /\ forall k, m !! k <> Some None
              | None => exists k, m !! k = Some None
              end)).
  - split; intros k; rewrite lookup_empty; [reflexivity | discriminate].
  - intros i x m r Hi IH. destruct r as [named |].
    + destruct IH as [Hl Hn]. destruct x as [v |].
      * split; intros k; destruct (decide (i = k)) as [-> | Hne].
        -- rewrite !lookup_insert_eq. reflexivity.
        -- rewrite !lookup_insert_ne by exact Hne. apply Hl.
        -- rewrite lookup_insert_eq. discriminate.
        -- rewrite lookup_insert_ne by exact Hne. apply Hn.
      * exists i. apply lookup_insert_eq.
    + destruct IH as [k Hk]. exists k.
      destruct (decide (i = k)) as [-> | Hne]; [congruence |].
      rewrite lookup_insert_ne by exact Hne. exact Hk.
Qed.

Lemma nameRepos_some repos named :
  nameRepos repos = Some named <->
  (forall k, repos !! k <> Some None)
  /\ forall k, named !! k = (fun v => setName k <$> v) <$> repos !! k.
Proof.
  unfold nameRepos. pose proof (nameRepos_fold repos repos) as H. split.
  - intros E. rewrite E in H. destruct H as [Hl Hn]. split; [exact Hn |].
    intros k. rewrite Hl. destruct (repos !! k); reflexivity.
  - intros [Hn Hl].
    destruct (map_fold _ _ repos) as [named' |].
    + f_equal. apply map_eq. intros k. destruct H as [Hl' _].
      rewrite Hl, Hl'. destruct (repos !! k); reflexivity.
    + destruct H as [k Hk]. exfalso. exact (Hn k Hk).
Qed.

Lemma nameRepos_none repos :
  nameRepos repos = None <-> exists k, repos !! k = Some None.
Proof.
  unfold nameRepos. pose proof (nameRepos_fold repos repos) as H. split.
  - intros E. rewrite E in H. exact H.
  - intros [k Hk]. destruct (map_fold _ _ repos) as [named |]; [| reflexivity].
    destruct H as [_ Hn]. exfalso. exact (Hn k Hk).
Qed.

(** X1: when [readInput] returns, the file was read and decoded, the
    branch mapping is the decoded one, the keys of [Repos] are the decoded
    keys, no repository is nil, and every repository bears the name of its
    key, whatever name the decoder had read for it, with its path and its
    two remotes as decoded. *)
Theorem readInput_names_repositories lib rs path doc err :
  readInput lib rs path = Returns (doc, err) ->
  exists yamlFile decoded,
    os_ReadFile lib path = Got yamlFile
    /\ yaml_Unmarshal lib yamlFile rs = Got (Some decoded)
    /\ DocBranchMapping doc = DocBranchMapping decoded
    /\ (forall k, is_Some (DocRepos doc !! k) <-> is_Some (DocRepos decoded !! k))
    /\ (forall k, DocRepos doc !! k <> Some None)
    /\ forall k r,
         DocRepos doc !! k = Some (Some r) ->
         RepoName r = k
         /\ exists r0,
              DocRepos decoded !! k = Some (Some r0)
              /\ Path r = Path r0
              /\ SourceRemote r = SourceRemote r0
              /\ TargetRemote r = TargetRemote r0.
Proof.
  unfold readInput. intros H.
  destruct (os_ReadFile lib path) as [yamlFile | e] eqn:Er; [| discriminate H].
  destruct (yaml_Unmarshal lib yamlFile rs) as [[decoded |] | e] eqn:Ey;
    try discriminate H.
  destruct (nameRepos (DocRepos decoded)) as [named |] eqn:En; [| discriminate H].
  inversion H; subst; clear H. apply nameRepos_some in En as [Hn Hl].
  exists yamlFile, decoded. cbn [DocRepos DocBranchMapping].
  split; [reflexivity |]. split; [exact Ey |]. split; [reflexivity |].
  split; [| split].
  - intros k. rewrite Hl. destruct (DocRepos decoded !! k); cbn.
    + split; intros _; eexists; reflexivity.
    + split; intros [x Hx]; discriminate Hx.
  - intros k. rewrite Hl. specialize (Hn k).
    destruct (DocRepos decoded !! k) as [[r0 |] |]; cbn; congruence.
  - intros k r. rewrite Hl.
    destruct (DocRepos decoded !! k) as [[r0 |] |]; cbn; intros Hr; try discriminate Hr.
    inversion Hr; subst. split; [reflexivity |]. exists r0. auto.
Qed.

Lemma readInput_names_repositories_witness :
  exists doc r,
    readInput Inputs.disk None "sync.yaml" = Returns (doc, None)
    /\ DocRepos doc !! "foo" = Some (Some r)
    /\ RepoName r = "foo"
    /\ Path r = Examples.fooPath.
Proof.
  eexists _, _. split; [vm_compute; reflexivity |].
  split; [vm_compute; reflexivity |].
  match goal with
  | |- RepoName ?r = _ /\ _ =>
      destruct (readInput_names_repositories Inputs.disk None "sync.yaml" _ None
                  ltac:(vm_compute; reflexivity))
        as (yamlFile & decoded & _ & _ & _ & _ & _ & Hk);
      destruct (Hk "foo" r ltac:(vm_compute; reflexivity)) as [Hname _]
  end.
  split; [exact Hname | reflexivity].
Defined.

(** X2: [readInput] ends the process through [log.Fatalf] exactly when the
    file cannot be read (the line names the path and the error, and the
    decoder is not consulted) or cannot be decoded; it dereferences a nil
    pointer exactly when the decoder leaves the document nil or the
    document holds a nil repository; and when it returns, the error it
    returns is nil, so that the [panic] of line 122 is never reached. *)
Theorem readInput_failures lib rs path :
  (forall fmt args,
      readInput lib rs path = Fatal fmt args <->
      (exists err,
          os_ReadFile lib path = Failed err
          /\ fmt = "failed to read Yaml file '%s': %v " /\ args = [path; err])
      \/ (exists yamlFile err,
             os_ReadFile lib path = Got yamlFile
             /\ yaml_Unmarshal lib yamlFile rs = Failed err
             /\ fmt = "failed to unmarshal input: %v" /\ args = [err]))
  /\ (readInput lib rs path = NilDereference <->
      exists yamlFile,
        os_ReadFile lib path = Got yamlFile
        /\ (yaml_Unmarshal lib yamlFile rs = Got None
            \/ exists decoded k,
                 yaml_Unmarshal lib yamlFile rs = Got (Some decoded)
                 /\ DocRepos decoded !! k = Some None))
  /\ (forall doc err, readInput lib rs path = Returns (doc, err) -> err = None).
Proof.
  unfold readInput.
  destruct (os_ReadFile lib path) as [yamlFile | e].
  - destruct (yaml_Unmarshal lib yamlFile rs) as [[decoded |] | e] eqn:Ey.
    + destruct (nameRepos (DocRepos decoded)) as [named |] eqn:En.
      * split; [| split].
        -- intros fmt args. split; [discriminate |].
           intros [(err & H & _) | (y & err & Hr & H & _)]; [discriminate H |].
           inversion Hr; subst. rewrite Ey in H. discriminate H.
        -- split; [discriminate |].
           intros (y & Hr & [H | (d & k & H & Hk)]); inversion Hr; subst;
             rewrite Ey in H; [discriminate H |].
           inversion H; subst.
           assert (Hnone : nameRepos (DocRepos d) = None)
             by (apply nameRepos_none; exists k; exact Hk).
           rewrite Hnone in En. discriminate En.
        -- intros doc err H. inversion H. reflexivity.
      * apply nameRepos_none in En as [k Hk]. split; [| split].
        -- intros fmt args. split; [discriminate |].
           intros [(err & H & _) | (y & err & Hr & H & _)]; [discriminate H |].
           inversion Hr; subst. rewrite Ey in H. discriminate H.
        -- split; [| reflexivity]. intros _. exists yamlFile.
           split; [reflexivity |]. right. exists decoded, k. auto.
        -- intros doc err H. discriminate H.
    + split; [| split].
      * intros fmt args. split; [discriminate |].
        intros [(err & H & _) | (y & err & Hr & H & _)]; [discriminate H |].
        inversion Hr; subst. rewrite Ey in H. discriminate H.
      * split; [| reflexivity]. intros _. exists yamlFile. auto.
      * intros doc err H. discriminate H.
    + split; [| split].
      * intros fmt args. split.
        -- intros H. inversion H; subst. right. exists yamlFile, e. auto.
        -- intros [(err & H & _) | (y & err & Hr & H & -> & ->)]; [discriminate H |].
           inversion Hr; subst. rewrite Ey in H. inversion H. reflexivity.
      * split; [discriminate |].
        intros (y & Hr & [H | (d & k & H & _)]); inversion Hr; subst;
          rewrite Ey in H; discriminate H.
      * intros doc err H. discriminate H.
  - split; [| split].
    + intros fmt args. split.
      * intros H. inversion H; subst. left. exists e. auto.
      * intros [(err & H & -> & ->) | (y & err & Hr & _)]; [| discriminate Hr].
        inversion H. reflexivity.
    + split; [discriminate |]. intros (y & Hr & _). discriminate Hr.
    + intros doc err H. discriminate H.
Qed.

(** ** The lookup of the local branch (main.go, lines 85-116) *)

(** X3: [repoGetLocalBranchForRemote] makes no call but [repo.Branches()].
    When both listings answer, it returns with a nil error and the last
    branch of the second listing whose name is the name of the remote
    branch, and nil when that listing holds none; the first listing has no
    part in the result.  When a listing fails, the error line is printed
    and the nil iterator makes the function panic: it never returns an
    error. *)
Theorem local_branch_lookup {W} (git : GitLib W) repo remoteBranch w o w' tr :
  repoGetLocalBranchForRemote git repo remoteBranch w = (o, w', tr) ->
  (exists l1 l2,
      tr = [EvCall (Repository_Branches repo) (Ok l1);
            EvCall (Repository_Branches repo) (Ok l2)]
      /\ o = Ret (foundLocalBranch remoteBranch l2, None)
      /\ (foundLocalBranch remoteBranch l2 = None <->
          forall x, In x l2 -> RefName x <> RefName remoteBranch)
      /\ forall localBranch,
           foundLocalBranch remoteBranch l2 = Some localBranch ->
           RefName localBranch = RefName remoteBranch
           /\ exists before after,
                l2 = before ++ localBranch :: after
                /\ forall x, In x after -> RefName x <> RefName remoteBranch)
  \/ (o = Panic
      /\ exists listed e,
           (listed = [] \/ exists l1, listed = [EvCall (Repository_Branches repo) (Ok l1)])
           /\ tr = listed ++ [EvCall (Repository_Branches repo) (Err e);
                              EvLog ErrorLevel branchesFmt [AErr e]]).
Proof.
  intros H.
  unfold repoGetLocalBranchForRemote, bind, call, logf, ret, exit, panic in H.
  cbn -[String.append] in H. run_all H.
  - left. exists a, a0. split; [reflexivity |]. split; [reflexivity |].
    split; [apply foundLocalBranch_none |].
    intros localBranch Hf. apply foundLocalBranch_some in Hf as (b & af & Hl & Hn & Ha).
    split; [exact Hn |]. exists b, af. auto.
  - right. split; [reflexivity |]. exists [EvCall (Repository_Branches repo) (Ok a)], e.
    split; [right; exists a; reflexivity | reflexivity].
  - right. split; [reflexivity |]. exists [], e. split; [left; reflexivity | reflexivity].
Qed.

Lemma local_branch_lookup_witness :
  exists w' tr localBranch,
    repoGetLocalBranchForRemote RefGit.lib Examples.fooPath (Examples.master "abc123")
                                Examples.behind
    = (Ret (Some localBranch, None), w', tr)
    /\ RefName localBranch = "refs/heads/master"
    /\ RefHash localBranch = "0ld000".
Proof.
  destruct (local_branch_lookup RefGit.lib Examples.fooPath (Examples.master "abc123")
              Examples.behind _ _ _ ltac:(vm_compute; reflexivity))
    as [(l1 & l2 & Htr & Ho & _ & Hsome) | (Ho & _)]; [| discriminate Ho].
  inversion Htr; subst; clear Htr.
  eexists _, _, _. split; [vm_compute; reflexivity |].
  split; reflexivity.
Defined.


(** ** How a run ends (main.go, every [log.Errorf]) *)

Lemma endsAsLogged_seq nilPointer t1 en t2 :
  endsAsLogged nilPointer Returned t1 ->
  endsAsLogged nilPointer en t2 ->
  endsAsLogged nilPointer en (t1 ++ t2).
Proof.
  induction t1 as [| e t1 IH]; intros H1 H2; [exact H2 |].
  cbn [app endsAsLogged] in *. destruct (branchesError e).
  - destruct H1 as [H1 _]; discriminate H1.
  - destruct e as [[] fmt args | A c a].
    + destruct H1 as [Hf H1]. split; [exact Hf | apply IH; assumption].
    + destruct H1 as [H1 _]; discriminate H1.
    + apply IH; assumption.
Qed.

Lemma endsAsLogged_weaken (P Q : Prop) en tr :
  (P -> Q) -> endsAsLogged P en tr -> endsAsLogged Q en tr.
Proof.
  intros HPQ. induction tr as [| e tr IH]; cbn [endsAsLogged].
  - destruct en; auto.
  - destruct (branchesError e); [auto |].
    destruct e as [[] fmt args | A c a]; auto.
    intros [Hf H]. split; auto.
Qed.

Ltac close_logged :=
  cbn; unfold nilRemote;
  repeat match goal with
         | |- _ /\ _ => split
         end;
  auto.

Lemma logged_provisionTarget {W} (git : GitLib W) rs repo :
  holds (endsAsLogged (nilRemote rs)) (provisionTarget git rs repo).
Proof.
  intros w o w' tr H.
  unfold provisionTarget, bind, call, logf, ret, exit, panic, deref in H.
  cbn -[String.append] in H. run_all H.
  all: close_logged.
Qed.

Lemma logged_syncBranch {W} (git : GitLib W) repoSync rs repo remoteBranch :
  holds (endsAsLogged (nilRemote rs)) (syncBranch git repoSync rs repo remoteBranch).
Proof.
  intros w o w' tr H. unfold_branch H. run_all H.
  all: close_logged.
Qed.

Lemma logged_fetchRemote {W} (git : GitLib W) rs remote branchesToSync :
  holds (endsAsLogged (nilRemote rs)) (fetchRemote git rs remote branchesToSync).
Proof.
  intros w o w' tr H.
  unfold fetchRemote, bind, call, logf, ret, exit, panic, deref in H.
  cbn -[String.append] in H. run_all' H.
  all: try solve [close_logged].
  all: cbn; split; [reflexivity |].
  all: refine (holds_foldEach _ _ (endsAsLogged_seq _) _ _ _ _ _ _ _ _ Ephase); [exact I |].
  all: intros x s ? ? ? ? Hc; unfold collectBranch, bind, logf, ret in Hc.
  all: cbn -[String.append] in Hc; run_all Hc; close_logged.
Qed.

Lemma logged_pushTag {W} (git : GitLib W) rs repo t :
  holds (endsAsLogged (nilRemote rs)) (pushTag git rs repo t).
Proof.
  intros w o w' tr H.
  unfold pushTag, bind, call, logf, ret, exit, panic, deref in H.
  cbn -[String.append] in H. run_all H.
  all: close_logged.
Qed.

Lemma logged_fetchEverything {W} (git : GitLib W) rs remotes branchesToSync :
  holds (endsAsLogged (nilRemote rs)) (fetchEverything git rs remotes branchesToSync).
Proof.
  apply holds_foldEach;
    [exact I | apply endsAsLogged_seq | intros; apply logged_fetchRemote].
Qed.

Lemma logged_syncBranches {W} (git : GitLib W) repoSync rs repo branchesToSync :
  holds (endsAsLogged (nilRemote rs)) (syncBranches git repoSync rs repo branchesToSync).
Proof.
  apply holds_forEach;
    [exact I | apply endsAsLogged_seq | intros; apply logged_syncBranch].
Qed.

Lemma logged_pushEachTag {W} (git : GitLib W) rs repo tags :
  holds (endsAsLogged (nilRemote rs)) (pushEachTag git rs repo tags).
Proof.
  apply holds_forEach;
    [exact I | apply endsAsLogged_seq | intros; apply logged_pushTag].
Qed.

Ltac phase_logged :=
  match goal with
  | E : _ = (?o, _, ?t) |- endsAsLogged _ _ ?t =>
      first [ exact (logged_provisionTarget _ _ _ _ _ _ _ E)
            | exact (logged_fetchEverything _ _ _ _ _ _ _ _ E)
            | exact (logged_syncBranches _ _ _ _ _ _ _ _ _ E)
            | exact (logged_pushEachTag _ _ _ _ _ _ _ _ E) ]
  end.

Ltac split_logged :=
  repeat (cbn;
          repeat match goal with
                 | |- _ = false /\ _ => split; [reflexivity |]
                 end;
          match goal with
          | |- endsAsLogged _ _ (_ ++ _) => apply endsAsLogged_seq; [phase_logged |]
          end);
  cbn;
  repeat match goal with
         | |- _ = false /\ _ => split; [reflexivity |]
         end;
  first [phase_logged | close_logged].

Lemma logged_syncRepo {W} (git : GitLib W) repoSync rs :
  holds (endsAsLogged (nilRemote rs)) (syncRepo git repoSync rs).
Proof.
  intros w o w' tr H.
  unfold syncRepo, pushTags, bind, call, logf, ret, exit, panic in H.
  cbn -[String.append] in H. run_all' H.
  all: split_logged.
Qed.

Lemma logged_syncRepos {W} (git : GitLib W) repoSync allRepos repos :
  (forall rs, In rs repos -> In rs allRepos) ->
  holds (endsAsLogged (exists rs, In rs allRepos /\ nilRemote rs))
        (forEach (syncRepo git repoSync) repos).
Proof.
  induction repos as [| rs repos IH]; intros Hin.
  - intros w o w' tr H. cbv in H. inversion H. exact I.
  - unfold forEach. cbn [foldEach].
    apply holds_bind; [apply endsAsLogged_seq | |].
    + intros w o w' tr H.
      eapply endsAsLogged_weaken; [| exact (logged_syncRepo _ _ _ _ _ _ _ H)].
      intros Hn. exists rs. split; [apply Hin; left; reflexivity | exact Hn].
    + intros []. apply IH. intros r Hr. apply Hin. right. exact Hr.
Qed.

Lemma logged_main {W} (git : GitLib W) repoSync :
  holds (endsAsLogged (exists rs, In rs (Repos repoSync) /\ nilRemote rs))
        (main git repoSync).
Proof. unfold main. apply logged_syncRepos. auto. Qed.

Lemma endsAsLogged_failed_listing nilPointer en tr :
  endsAsLogged nilPointer en tr ->
  forall pre e err post,
    tr = pre ++ e :: post -> branchesError e = Some err ->
    en = Panicked /\ post = [EvLog ErrorLevel branchesFmt [AErr err]].
Proof.
  intros H pre. revert tr H.
  induction pre as [| x pre IH]; intros tr H e err post -> He.
  - cbn [app endsAsLogged] in H. rewrite He in H. exact H.
  - cbn [app endsAsLogged] in H. destruct (branchesError x) eqn:Hx.
    + destruct H as [_ Hrest]. exfalso.
      destruct pre as [| y pre]; cbn in Hrest.
      * inversion Hrest; subst. discriminate He.
      * inversion Hrest. destruct pre; discriminate.
    + destruct x as [[] fmt args | A c a].
      * destruct H as [_ H]. eapply IH; [exact H | reflexivity | exact He].
      * destruct H as (_ & Hrest & _). destruct pre; discriminate Hrest.
      * eapply IH; [exact H | reflexivity | exact He].
Qed.

Lemma endsAsLogged_error_line nilPointer en tr :
  endsAsLogged nilPointer en tr ->
  forall pre fmt args post,
    tr = pre ++ EvLog ErrorLevel fmt args :: post ->
    post = [] /\ (en = Exited 1 \/ (en = Panicked /\ fmt = branchesFmt)).
Proof.
  intros H pre. revert tr H.
  induction pre as [| x pre IH]; intros tr H fmt args post ->.
  - cbn in H. destruct H as (He & -> & _). auto.
  - cbn [app endsAsLogged] in H. destruct (branchesError x) eqn:Hx.
    + destruct H as [He Hrest].
      destruct pre as [| y pre]; cbn in Hrest.
      * inversion Hrest; subst. auto.
      * inversion Hrest. destruct pre; discriminate.
    + destruct x as [[] f a | A c a].
      * destruct H as [_ H]. eapply IH; [exact H | reflexivity].
      * destruct H as (_ & Hrest & _). destruct pre; discriminate Hrest.
      * eapply IH; [exact H | reflexivity].
Qed.

Lemma endsAsLogged_exit nilPointer code tr :
  endsAsLogged nilPointer (Exited code) tr ->
  code = 1%Z /\ exists pre fmt args, tr = pre ++ [EvLog ErrorLevel fmt args].
Proof.
  induction tr as [| x tr IH]; cbn [endsAsLogged]; [contradiction |].
  assert (Hcons : endsAsLogged nilPointer (Exited code) tr ->
                  code = 1%Z
                  /\ exists pre fmt args, x :: tr = pre ++ [EvLog ErrorLevel fmt args]).
  { intros H. destruct (IH H) as (Hc & pre & fmt & args & ->).
    split; [exact Hc |]. exists (x :: pre), fmt, args. reflexivity. }
  destruct (branchesError x).
  - intros [He _]. discriminate He.
  - destruct x as [[] fmt args | A c a].
    + intros [_ H]. exact (Hcons H).
    + intros (He & -> & _). inversion He. split; [reflexivity |].
      exists [], fmt, args. reflexivity.
    + exact Hcons.
Qed.

Lemma endsAsLogged_panic nilPointer tr :
  endsAsLogged nilPointer Panicked tr ->
  (exists pre err, tr = pre ++ [EvLog ErrorLevel branchesFmt [AErr err]])
  \/ (nilPointer /\ Forall (fun e => isErrorLog e = false) tr).
Proof.
  induction tr as [| x tr IH]; cbn [endsAsLogged]; [intros H; right; split; [exact H | constructor] |].
  assert (Hcons : isErrorLog x = false ->
                  endsAsLogged nilPointer Panicked tr ->
                  (exists pre err, x :: tr = pre ++ [EvLog ErrorLevel branchesFmt [AErr err]])
                  \/ (nilPointer /\ Forall (fun e => isErrorLog e = false) (x :: tr))).
  { intros Hx H. destruct (IH H) as [(pre & err & ->) | [Hn Hall]].
    - left. exists (x :: pre), err. reflexivity.
    - right. split; [exact Hn | constructor; assumption]. }
  destruct (branchesError x) as [err |].
  - intros [_ ->]. left. exists [x], err. reflexivity.
  - destruct x as [[] fmt args | A c a].
    + intros [_ H]. exact (Hcons eq_refl H).
    + intros [He _]. discriminate He.
    + exact (Hcons eq_refl).
Qed.

Lemma endsAsLogged_lookup nilPointer en tr :
  endsAsLogged nilPointer en tr ->
  forall lvl args, ~ In (EvLog lvl lookupFmt args) tr.
Proof.
  induction tr as [| x tr IH]; cbn [endsAsLogged]; [intros _ lvl args [] |].
  destruct (branchesError x) as [err |] eqn:Hx.
  - intros [_ ->] lvl args [-> | [H | []]]; [discriminate Hx | discriminate H].
  - destruct x as [[] fmt a | A c a].
    + intros [Hf H] lvl args [He | Hin]; [| exact (IH H lvl args Hin)].
      inversion He; subst. discriminate Hf.
    + intros (_ & -> & _ & Hf) lvl args [He | []]. inversion He; subst. discriminate Hf.
    + intros H lvl args [He | Hin]; [discriminate He | exact (IH H lvl args Hin)].
Qed.

(** X4: a [repo.Branches()] call that fails is followed by the line
    "failed to get branches" with its error and then by a panic of the
    process, and by nothing else; and no run prints the error line of line
    189, since [repoGetLocalBranchForRemote] never returns an error. *)
Theorem failed_listing_panics {W} (git : GitLib W) repoSync w o w' tr :
  main git repoSync w = (o, w', tr) ->
  (forall pre repo err post,
      tr = pre ++ EvCall (Repository_Branches repo) (Err err) :: post ->
      o = Panic /\ post = [EvLog ErrorLevel branchesFmt [AErr err]])
  /\ forall lvl args, ~ In (EvLog lvl lookupFmt args) tr.
Proof.
  intros H. pose proof (logged_main git repoSync _ _ _ _ H) as Hv. split.
  - intros pre repo err post Htr.
    destruct (endsAsLogged_failed_listing _ _ _ Hv pre _ err post Htr eq_refl) as [Hen Hpost].
    split; [| exact Hpost]. destruct o; try discriminate Hen. reflexivity.
  - exact (endsAsLogged_lookup _ _ _ Hv).
Qed.

(** A run over the clone of the README with a library whose branch listing
    fails: the first branch is not reconciled, the process panics. *)
Lemma failed_listing_panics_witness :
  main Edge.unreadableBranches Examples.readme Examples.cloned = Edge.unreadableRun
  /\ fst (fst Edge.unreadableRun) = Panic
  /\ exists pre,
       snd Edge.unreadableRun
       = pre ++ [EvCall (Repository_Branches Examples.fooPath)
                        (Err (OtherError "permission denied"));
                 EvLog ErrorLevel branchesFmt [AErr (OtherError "permission denied")]].
Proof.
  split; [vm_compute; reflexivity |].
  destruct (failed_listing_panics Edge.unreadableBranches Examples.readme Examples.cloned
              (fst (fst Edge.unreadableRun)) (snd (fst Edge.unreadableRun))
              (snd Edge.unreadableRun) ltac:(vm_compute; reflexivity))
    as [Hfail _].
  destruct (Hfail (removelast (removelast (snd Edge.unreadableRun)))
                  Examples.fooPath (OtherError "permission denied")
                  [EvLog ErrorLevel branchesFmt [AErr (OtherError "permission denied")]]
                  ltac:(vm_compute; reflexivity))
    as [Ho _].
  split; [exact Ho |].
  exists (removelast (removelast (snd Edge.unreadableRun))). vm_compute. reflexivity.
Defined.

(** X5: a process that exits does so with status 1, and the last thing it
    did was to print an error line; an error line is always the last event
    of a run, which then ends with status 1, or with a panic when the line
    is the one of a failed branch listing; and a panic comes either right
    after that line or, without any error line, from a repository whose
    source or target remote is nil. *)
Theorem exit_is_announced {W} (git : GitLib W) repoSync w o w' tr :
  main git repoSync w = (o, w', tr) ->
  (forall code,
      o = Exit code ->
      code = 1%Z /\ exists pre fmt args, tr = pre ++ [EvLog ErrorLevel fmt args])
  /\ (forall pre fmt args post,
        tr = pre ++ EvLog ErrorLevel fmt args :: post ->
        post = [] /\ (o = Exit 1 \/ (o = Panic /\ fmt = branchesFmt)))
  /\ (o = Panic ->
      (exists pre err, tr = pre ++ [EvLog ErrorLevel branchesFmt [AErr err]])
      \/ ((exists rs, In rs (Repos repoSync) /\ nilRemote rs)
          /\ Forall (fun e => isErrorLog e = false) tr)).
Proof.
  intros H. pose proof (logged_main git repoSync _ _ _ _ H) as Hv.
  split; [| split].
  - intros code ->. exact (endsAsLogged_exit _ _ _ Hv).
  - intros pre fmt args post Htr.
    destruct (endsAsLogged_error_line _ _ _ Hv pre fmt args post Htr) as [Hp Hen].
    split; [exact Hp |].
    destruct o as [[] | c |]; cbn in Hen.
    + destruct Hen as [Hen | [Hen _]]; discriminate Hen.
    + destruct Hen as [Hen | [Hen _]]; [inversion Hen; left; reflexivity | discriminate Hen].
    + destruct Hen as [Hen | [_ Hf]]; [discriminate Hen | right; auto].
  - intros ->. exact (endsAsLogged_panic _ _ Hv).
Qed.

(** A run where no repository is at the path of the input: the process
    exits with status 1 after the error line of [git.PlainOpen]. *)
Lemma exit_is_announced_witness :
  exists code w' tr,
    main RefGit.lib Examples.readme Edge.nowhere = (Exit code, w', tr)
    /\ code = 1%Z
    /\ exists pre fmt args, tr = pre ++ [EvLog ErrorLevel fmt args].
Proof.
  eexists _, _, _. split; [vm_compute; reflexivity |].
  match goal with
  | |- ?c = _ /\ (exists pre fmt args, ?t = _) =>
      destruct (exit_is_announced RefGit.lib Examples.readme Edge.nowhere (Exit c) _ t
                  ltac:(vm_compute; reflexivity))
        as [Hexit _]
  end.
  exact (Hexit _ eq_refl).
Defined.

(** ** Repositories without a target or a source remote *)

Lemma targetless_syncRepo_stops {W} (git : GitLib W) repoSync rs w o w' tr :
  TargetRemote rs = None ->
  syncRepo git repoSync rs w = (o, w', tr) -> o <> Ret tt.
Proof.
  intros Ht H.
  unfold syncRepo, provisionTarget, bind, call, logf, ret, exit, panic, deref in H.
  rewrite Ht in H. cbn -[String.append] in H. run_all H; discriminate.
Qed.

(** A loop over a list that holds an item whose body never ends normally
    does not end normally. *)
Lemma forEach_stops {W X} (body : X -> M W unit) (x : X) xs w o w' tr :
  In x xs ->
  (forall w o w' tr, body x w = (o, w', tr) -> o <> Ret tt) ->
  forEach body xs w = (o, w', tr) -> o <> Ret tt.
Proof.
  intros Hin Hstop. unfold forEach. revert w o w' tr.
  induction xs as [| y xs IH]; intros w o w' tr H; [destruct Hin |].
  cbn [foldEach] in H.
  apply bind_inv in H as [([] & w1 & t1 & t2 & H1 & H2 & ->) | (o1 & H1 & Hn & ->)].
  - destruct Hin as [-> | Hin].
    + exfalso. exact (Hstop _ _ _ _ H1 eq_refl).
    + exact (IH Hin _ _ _ _ H2).
  - destruct o1 as [[] | c |]; [exfalso; exact (Hn tt eq_refl) | discriminate | discriminate].
Qed.

(** X6: a repository without [targetRemote] is opened and its remotes are
    listed; then the name of the nil target remote is read and the process
    panics, before anything is looked up, fetched or pushed.  (When the
    repository cannot be opened or its remotes cannot be listed, the run
    exits with status 1 as for any repository.)  A run of the program over
    an input that holds such a repository never ends normally. *)
Theorem missing_target_remote {W} (git : GitLib W) repoSync rs :
  TargetRemote rs = None ->
  (forall w o w' tr,
      syncRepo git repoSync rs w = (o, w', tr) ->
      let opening := EvLog InfoLevel "Opening %s..." [AStr (Path rs)] in
      (o = Panic
       /\ exists repo remotes,
            tr = [opening; EvCall (git_PlainOpen (Path rs)) (Ok repo);
                  EvCall (Repository_Remotes repo) (Ok remotes)])
      \/ (o = Exit 1
          /\ ((exists e,
                  tr = [opening; EvCall (git_PlainOpen (Path rs)) (Err e);
                        EvLog ErrorLevel "failed to open repo from %s: %v"
                              [AStr (Path rs); AErr e]])
              \/ exists repo e,
                   tr = [opening; EvCall (git_PlainOpen (Path rs)) (Ok repo);
                         EvCall (Repository_Remotes repo) (Err e);
                         EvLog ErrorLevel "failed to get remotes for %s: %v"
                               [AStr (Path rs); AErr e]])))
  /\ (In rs (Repos repoSync) ->
      forall w o w' tr, main git repoSync w = (o, w', tr) -> o <> Ret tt).
Proof.
  intros Ht. split.
  - intros w o w' tr H opening. subst opening.
    unfold syncRepo, provisionTarget, bind, call, logf, ret, exit, panic, deref in H.
    rewrite Ht in H. cbn -[String.append] in H. run_all H.
    + left. split; [reflexivity |]. eexists _, _. reflexivity.
    + right. split; [reflexivity |]. right. eexists _, _. reflexivity.
    + right. split; [reflexivity |]. left. eexists. reflexivity.
  - intros Hin w o w' tr H. unfold main in H.
    refine (forEach_stops _ rs _ _ _ _ _ Hin _ H).
    intros w1 o1 w2 t1. apply targetless_syncRepo_stops. exact Ht.
Qed.

Lemma missing_target_remote_witness :
  TargetRemote Edge.targetless = None
  /\ exists w' tr,
       syncRepo RefGit.lib Examples.readme Edge.targetless Examples.fresh = (Panic, w', tr)
       /\ List.length tr = 3%nat.
Proof.
  split; [reflexivity |].
  destruct (missing_target_remote RefGit.lib Examples.readme Edge.targetless eq_refl)
    as [Hshape _].
  destruct (syncRepo RefGit.lib Examples.readme Edge.targetless Examples.fresh)
    as [[o w'] tr] eqn:E.
  destruct (Hshape _ _ _ _ E) as [[-> (repo & remotes & ->)] | [-> _]].
  - eexists _, _. split; reflexivity.
  - vm_compute in E. discriminate E.
Defined.

Lemma provisionTarget_returns {W} (git : GitLib W) rs repo target w o w' tr :
  TargetRemote rs = Some target ->
  provisionTarget git rs repo w = (o, w', tr) -> o = Ret tt.
Proof.
  intros Ht H.
  unfold provisionTarget, bind, call, logf, ret, exit, panic, deref in H.
  rewrite Ht in H. cbn -[String.append] in H. run_all H; reflexivity.
Qed.

(** The fetch loop when the configuration has no source remote: the first
    remote is fetched, and the comparison of its name with the name of the
    source remote is a nil dereference. *)
Lemma fetchEverything_sourceless {W} (git : GitLib W) rs remotes acc w o w' tr :
  SourceRemote rs = None ->
  fetchEverything git rs remotes acc w = (o, w', tr) ->
  match remotes with
  | [] => o = Ret acc /\ tr = []
  | remote :: _ =>
      exists err,
        o = (if isFailure err then Exit 1 else Panic)
        /\ tr = EvLog InfoLevel "Found remote '%s' in '%s' repo... fetching"
                      [AStr (CfgName (Config remote)); AStr (Path rs)]
                :: EvCall (Remote_Fetch remote (snd (fetchAll remote))) err
                :: (if isFailure err
                    then [EvLog ErrorLevel "failed to fetch %s in '%s' repo: %v"
                                [AStr (CfgName (Config remote)); AStr (Path rs); errArg err]]
                    else [])
  end.
Proof.
  intros Hs H. destruct remotes as [| remote rest].
  - cbn in H. inversion H. auto.
  - unfold fetchEverything in H. cbn [foldEach] in H.
    unfold fetchRemote at 1 in H.
    unfold bind, call, logf, ret, exit, panic, deref in H.
    rewrite Hs in H. cbn -[String.append] in H.
    destruct (git _ (Remote_Fetch remote (mkFetchOptions (Remote_String remote) AllTags)) w)
      as [err w1] eqn:Ef.
    cbn -[String.append] in H. exists err.
    destruct (isFailure err); cbn -[String.append] in H; inversion H; subst; auto.
Qed.

Lemma neverPanics_pushEachTag {W} (git : GitLib W) rs repo tags target :
  TargetRemote rs = Some target ->
  holds neverPanics (pushEachTag git rs repo tags).
Proof.
  intros Ht. apply holds_forEach.
  - discriminate.
  - intros t1 en t2 _ H. exact H.
  - intros t w o w' tr H.
    unfold pushTag, bind, call, logf, ret, exit, panic, deref in H.
    rewrite Ht in H. cbn -[String.append] in H. run_all H; discriminate.
Qed.

Lemma provision_not_failed e : provisionEvent e = true -> failedEvent e = false.
Proof.
  destruct e as [lvl fmt args | A c a]; [reflexivity |].
  destruct c; cbn; intros H; solve [reflexivity | discriminate H].
Qed.

(** X7: a repository without [sourceRemote] but with a target remote.  No
    remote is listed and nothing is checked out, pulled or reset.  When the
    repository has a remote, the first one is fetched, and the comparison
    of its name with the name of the nil source remote makes the process
    panic, unless that fetch failed and the run exits with status 1; no
    other remote is fetched and nothing is pushed.  When the repository has
    no remote, the source remote is never read: the run does not panic, and
    when it ends normally it has pushed every tag to the target remote. *)
Theorem missing_source_remote {W} (git : GitLib W) repoSync rs target w o w' tr :
  SourceRemote rs = None -> TargetRemote rs = Some target ->
  syncRepo git repoSync rs w = (o, w', tr) ->
  listCalls tr = [] /\ checkouts tr = [] /\ pulls tr = [] /\ resets tr = []
  /\ (forall remote rest,
        remotesRead tr = [remote :: rest] ->
        fetches tr = [fetchAll remote] /\ pushes tr = [] /\ tagsRead tr = []
        /\ (o = Exit 1 \/ o = Panic)
        /\ (o = Panic <-> forall e, In e tr -> failedEvent e = false))
  /\ (remotesRead tr = [[]] ->
      fetches tr = [] /\ o <> Panic
      /\ (o = Ret tt ->
          exists tags,
            tagsRead tr = [tags]
            /\ steps tr = List.map (fun t => StepPush (tagPush target t)) tags)).
Proof.
  intros Hs Ht H.
  unfold syncRepo, pushTags, bind, call, logf, ret, exit, panic in H.
  cbn -[String.append] in H. run_all' H.
  all: repeat match goal with u : unit |- _ => destruct u end.
  all: try match goal with
           | E : provisionTarget _ _ _ _ = _ |- _ =>
               pose proof (provisionTarget_returns _ _ _ _ _ _ _ _ Ht E) as Hprov;
               try discriminate Hprov
           end.
  all: footprints.
  all: try match goal with
           | E : fetchEverything _ _ _ _ _ = _ |- _ =>
               apply (fetchEverything_sourceless _ _ _ _ _ _ _ _ Hs) in E
           end.
  all: try (destruct a0 as [| remote0 rest0];
            [ destruct Ephase0 as [Ho ->]; try discriminate Ho;
              try (inversion Ho; subst; clear Ho)
            | destruct Ephase0 as (err & Ho & ->); destruct (isFailure err) eqn:Efail;
              try discriminate Ho; try (inversion Ho; subst; clear Ho) ]).
  all: try match goal with
           | E : syncBranches _ _ _ _ [] _ = _ |- _ =>
               unfold syncBranches, forEach in E; cbn in E; inversion E; subst; clear E
           end.
  all: unfold listCalls, checkouts, pulls, resets, remotesRead, fetches, pushes, tagsRead, steps.
  all: observe listCallOf; observe checkoutOf; observe pullOf; observe resetOf;
       observe remotesOf; observe fetchOf; observe pushOf; observe tagsOf; observe stepOf.
  all: repeat (split; [reflexivity |]).
  all: (split; [intros remote rest Hrem; try discriminate Hrem
               | intros Hrem; try discriminate Hrem]).
  - split; [reflexivity |]. split; [discriminate |]. intros _. exists a4.
    split; [reflexivity |].
    destruct (pushEachTag_steps _ _ _ _ _ _ _ _ _ Ht Ephase2) as (more & Hst & Hr).
    rewrite (Hr eq_refl), app_nil_r in Hst. exact Hst.
  - split; [reflexivity |]. split; [discriminate |]. intros Ho. discriminate Ho.
  - exfalso. exact (neverPanics_pushEachTag _ _ _ _ _ Ht _ _ _ _ Ephase2 eq_refl).
  - split; [reflexivity |]. split; [discriminate |]. intros Ho. discriminate Ho.
  - inversion Hrem; subst. split; [reflexivity |]. split; [reflexivity |].
    split; [reflexivity |]. split; [left; reflexivity |].
    split; [discriminate |]. intros Hclean. exfalso.
    assert (Hfetch : failedEvent (EvCall (Remote_Fetch remote (snd (fetchAll remote))) err)
                     = false).
    { apply Hclean. cbn. right. right. right. apply in_or_app. right.
      right. left. reflexivity. }
    cbn in Hfetch. rewrite Efail in Hfetch. discriminate Hfetch.
  - inversion Hrem; subst. split; [reflexivity |]. split; [reflexivity |].
    split; [reflexivity |]. split; [right; reflexivity |].
    split; [| reflexivity]. intros _ e Hin.
    destruct Hin as [<- | [<- | [<- | Hin]]]; try reflexivity.
    apply in_app_or in Hin as [Hin | [<- | [<- | []]]].
    + apply provision_not_failed. rewrite List.Forall_forall in Fprov. exact (Fprov e Hin).
    + reflexivity.
    + exact Efail.
Qed.

(** A repository with a tag and no remote, under a configuration without
    source remote: the target remote is added and the tag is pushed. *)
Lemma missing_source_remote_witness :
  SourceRemote Edge.sourceless = None
  /\ TargetRemote Edge.sourceless = Some (mkRemote "github" Examples.githubURL)
  /\ exists w' tr,
       syncRepo RefGit.lib Examples.readme Edge.sourceless Edge.tagged = (Ret tt, w', tr)
       /\ steps tr = [StepPush (tagPush (mkRemote "github" Examples.githubURL) Examples.v1)].
Proof.
  split; [reflexivity |]. split; [reflexivity |].
  eexists _, _. split; [vm_compute; reflexivity |].
  match goal with
  | |- steps ?t = _ =>
      destruct (missing_source_remote RefGit.lib Examples.readme Edge.sourceless
                  (mkRemote "github" Examples.githubURL) Edge.tagged (Ret tt) _ t
                  eq_refl eq_refl ltac:(vm_compute; reflexivity))
        as (_ & _ & _ & _ & _ & Hnone)
  end.
  destruct (Hnone ltac:(vm_compute; reflexivity)) as (_ & _ & Hret).
  destruct (Hret eq_refl) as (tags & Htags & Hsteps).
  rewrite Hsteps. vm_compute in Htags. inversion Htags. reflexivity.
Defined.

(** ** What is checked out, pulled and pushed *)

Lemma branchesOnly_nil en : branchesOnly en [].
Proof. repeat split; constructor. Qed.

Lemma branchesOnly_seq t1 en t2 :
  branchesOnly Returned t1 -> branchesOnly en t2 -> branchesOnly en (t1 ++ t2).
Proof.
  unfold branchesOnly, checkouts, pulls, pushes. intros (C1 & P1 & U1) (C2 & P2 & U2).
  rewrite !pick_app. repeat split; apply Forall_app; auto.
Qed.

Lemma branchesOnly_cons e en tr :
  checkoutOf e = None -> pullOf e = None -> pushOf e = None ->
  branchesOnly en tr -> branchesOnly en (e :: tr).
Proof.
  unfold branchesOnly, checkouts, pulls, pushes. intros Hc Hp Hu H.
  cbn [pick]. rewrite Hc, Hp, Hu. exact H.
Qed.

(** A part of the run that makes no checkout, pull or push. *)
Lemma branchesOnly_part (part : Event -> bool) en tr :
  (forall e, part e = true -> checkoutOf e = None) ->
  (forall e, part e = true -> pullOf e = None) ->
  (forall e, part e = true -> pushOf e = None) ->
  Forall (fun e => part e = true) tr -> branchesOnly en tr.
Proof.
  intros Hc Hp Hu H. unfold branchesOnly, checkouts, pulls, pushes.
  rewrite (pick_none _ part tr Hc H), (pick_none _ part tr Hp H), (pick_none _ part tr Hu H).
  repeat split; constructor.
Qed.

Lemma branchesOnly_provisionTarget {W} (git : GitLib W) rs repo :
  holds branchesOnly (provisionTarget git rs repo).
Proof.
  intros w o w' tr H.
  apply (branchesOnly_part provisionEvent); try by_cases_on_call.
  exact (made_provisionTarget _ _ _ _ _ _ _ H).
Qed.

Lemma branchesOnly_fetchEverything {W} (git : GitLib W) rs remotes branchesToSync :
  holds branchesOnly (fetchEverything git rs remotes branchesToSync).
Proof.
  intros w o w' tr H.
  apply (branchesOnly_part fetchEvent); try by_cases_on_call.
  exact (made_fetchEverything _ _ _ _ _ _ _ _ H).
Qed.

Lemma branchesOnly_pushTag {W} (git : GitLib W) rs repo t :
  holds branchesOnly (pushTag git rs repo t).
Proof.
  intros w o w' tr H.
  unfold pushTag, bind, call, logf, ret, exit, panic, deref in H.
  cbn -[String.append] in H. run_all H.
  all: unfold branchesOnly, checkouts, pulls, pushes; cbn [pick checkoutOf pullOf pushOf].
  all: repeat split; repeat constructor.
  all: exists ("refs/tags/" +:+ Short (RefName t)), ("refs/tags/" +:+ Short (RefName t)).
  all: repeat split; reflexivity.
Qed.

Lemma branchesOnly_pushEachTag {W} (git : GitLib W) rs repo tags :
  holds branchesOnly (pushEachTag git rs repo tags).
Proof.
  apply holds_forEach;
    [apply branchesOnly_nil | apply branchesOnly_seq | intros; apply branchesOnly_pushTag].
Qed.

Lemma branchesOnly_syncBranch {W} (git : GitLib W) repoSync rs repo remoteBranch :
  IsBranch (RefName remoteBranch) = true ->
  holds branchesOnly (syncBranch git repoSync rs repo remoteBranch).
Proof.
  intros Hb w o w' tr H. unfold_branch H. run_all H.
  all: name_facts.
  all: unfold branchesOnly, checkouts, pulls, pushes; cbn [pick checkoutOf pullOf pushOf].
  all: repeat split; repeat constructor; cbn [CoBranch PullReferenceName]; try congruence.
  all: match goal with
       | |- context [requiredRefSpecStr ?rsync ?lb ?rb] =>
           exists (RefName lb), ("refs/heads/" +:+ mapBranch rsync (Short (RefName rb)))
       end.
  all: cbn [PushRefSpecs PushFollowTags].
  all: split; [reflexivity | split; [congruence | reflexivity]].
Qed.

Lemma branchesOnly_syncBranches {W} (git : GitLib W) repoSync rs repo branchesToSync :
  Forall (fun r => IsBranch (RefName r) = true) branchesToSync ->
  holds branchesOnly (syncBranches git repoSync rs repo branchesToSync).
Proof.
  unfold syncBranches, forEach. induction 1 as [| r bs Hr _ IH].
  - intros w o w' tr H. cbn in H. inversion H. apply branchesOnly_nil.
  - cbn [foldEach]. apply holds_bind; [apply branchesOnly_seq | |].
    + apply branchesOnly_syncBranch. exact Hr.
    + intros []. exact IH.
Qed.

Lemma branchesOf_branches refs :
  Forall (fun r => IsBranch (RefName r) = true) (branchesOf refs).
Proof.
  unfold branchesOf. apply List.Forall_forall. intros r Hr.
  apply filter_In in Hr as [_ Hr]. exact Hr.
Qed.

(** The fetch loop collects branches only. *)
Lemma fetchEverything_branches {W} (git : GitLib W) rs remotes acc w bs w' tr :
  fetchEverything git rs remotes acc w = (Ret bs, w', tr) ->
  Forall (fun r => IsBranch (RefName r) = true) acc ->
  Forall (fun r => IsBranch (RefName r) = true) bs.
Proof.
  unfold fetchEverything. revert acc w bs w' tr.
  induction remotes as [| remote remotes IH]; intros acc w bs w' tr H Hacc.
  - cbn in H. inversion H; subst. exact Hacc.
  - cbn [foldEach] in H.
    apply bind_inv in H as [(bs1 & w1 & t1 & t2 & H1 & H2 & ->) | (o1 & _ & Hn & Ho)].
    + apply (IH _ _ _ _ _ H2).
      unfold fetchRemote, bind, call, logf, ret, exit, panic, deref in H1.
      cbn -[String.append] in H1. run_all' H1.
      * apply collectBranches_run in Ephase as (Hbs & _ & _). inversion Hbs; subst.
        apply Forall_app. split; [exact Hacc | apply branchesOf_branches].
      * exact Hacc.
    + destruct o1; [exfalso; eapply Hn; reflexivity | discriminate Ho | discriminate Ho].
Qed.

Lemma branchesOnly_syncRepo {W} (git : GitLib W) repoSync rs :
  holds branchesOnly (syncRepo git repoSync rs).
Proof.
  intros w o w' tr H.
  unfold syncRepo, pushTags, bind, call, logf, ret, exit, panic in H.
  cbn -[String.append] in H. run_all' H.
  all: repeat match goal with u : unit |- _ => destruct u end.
  all: try match goal with
           | E : fetchEverything _ _ _ _ _ = (Ret _, _, _) |- _ =>
               pose proof (fetchEverything_branches _ _ _ _ _ _ _ _ E (List.Forall_nil _))
                 as Hbranches
           end.
  all: repeat first
         [ match goal with
           | |- branchesOnly ?en [] => exact (branchesOnly_nil en)
           | |- branchesOnly ?en (_ :: _) =>
               apply (branchesOnly_cons _ en); [reflexivity | reflexivity | reflexivity |]
           | |- branchesOnly ?en (_ ++ _) => apply (branchesOnly_seq _ en)
           end
         | match goal with
           | E : _ = (_, _, ?t) |- branchesOnly _ ?t =>
               first [ exact (branchesOnly_provisionTarget _ _ _ _ _ _ _ E)
                     | exact (branchesOnly_fetchEverything _ _ _ _ _ _ _ _ E)
                     | exact (branchesOnly_syncBranches _ _ _ _ _ Hbranches _ _ _ _ E)
                     | exact (branchesOnly_pushEachTag _ _ _ _ _ _ _ _ E) ]
           end ].
Qed.

(** X8: in every run, every checkout and every pull is of a reference
    under [refs/heads/]; every push is forced and carries exactly one
    ref-spec [+src:dst] with a source that is not empty: a branch sent to
    a branch when the push is without [FollowTags], a tag under
    [refs/tags/] sent to its own name when it is with.  No run checks out
    a tag or [HEAD], and no push deletes a reference of the target. *)
Theorem only_branches_are_reconciled {W} (git : GitLib W) repoSync w o w' tr :
  main git repoSync w = (o, w', tr) ->
  Forall (fun co => IsBranch (CoBranch co) = true) (checkouts tr)
  /\ Forall (fun p => IsBranch (PullReferenceName p) = true) (pulls tr)
  /\ Forall mirrorPush (pushes tr).
Proof.
  intros H. unfold main in H.
  change (branchesOnly (ending o) tr).
  refine (holds_forEach branchesOnly (branchesOnly_nil _) branchesOnly_seq
            (syncRepo git repoSync) _ (Repos repoSync) _ _ _ _ H).
  intros rs. apply branchesOnly_syncRepo.
Qed.

Lemma only_branches_are_reconciled_witness :
  main RefGit.lib Examples.readme Examples.fresh = Examples.readmeRun
  /\ Forall (fun co => IsBranch (CoBranch co) = true) (checkouts (snd Examples.readmeRun))
  /\ Forall mirrorPush (pushes (snd Examples.readmeRun))
  /\ List.length (pushes (snd Examples.readmeRun)) = 3%nat.
Proof.
  split; [vm_compute; reflexivity |].
  destruct (only_branches_are_reconciled RefGit.lib Examples.readme Examples.fresh
              (fst (fst Examples.readmeRun)) (snd (fst Examples.readmeRun))
              (snd Examples.readmeRun) ltac:(vm_compute; reflexivity))
    as (Hco & _ & Hpush).
  split; [exact Hco |]. split; [exact Hpush |]. reflexivity.
Defined.

(** ** The repositories in turn (main.go, lines 125-131) *)

Lemma syncRepo_opens {W} (git : GitLib W) repoSync rs w o w' tr :
  syncRepo git repoSync rs w = (o, w', tr) -> opened tr = [Path rs].
Proof.
  intros H.
  unfold syncRepo, pushTags, bind, call, logf, ret, exit, panic in H.
  cbn -[String.append] in H. run_all' H.
  all: footprints.
  all: unfold opened; observe openOf; reflexivity.
Qed.

Lemma syncRepos_open {W} (git : GitLib W) repoSync repos w o w' tr :
  forEach (syncRepo git repoSync) repos w = (o, w', tr) ->
  exists done rest,
    repos = done ++ rest
    /\ opened tr = List.map Path done
    /\ (o = Ret tt -> rest = [])
    /\ (o <> Ret tt -> done <> []).
Proof.
  unfold forEach. revert w o w' tr.
  induction repos as [| rs repos IH]; intros w o w' tr H.
  - cbn in H. inversion H; subst. exists [], [].
    repeat split; try reflexivity. intros Hn. exfalso. apply Hn. reflexivity.
  - cbn [foldEach] in H.
    apply bind_inv in H as [([] & w1 & t1 & t2 & H1 & H2 & ->) | (o1 & H1 & Hn & ->)].
    + destruct (IH _ _ _ _ H2) as (done & rest & -> & Hop & Hret & _).
      exists (rs :: done), rest. split; [reflexivity |].
      split; [| split; [exact Hret | discriminate]].
      unfold opened in *. rewrite pick_app, Hop.
      apply syncRepo_opens in H1. unfold opened in H1. rewrite H1. reflexivity.
    + exists [rs], repos. split; [reflexivity |].
      split; [exact (syncRepo_opens _ _ _ _ _ _ _ H1) |].
      split; [| discriminate].
      intros Ho. exfalso.
      destruct o1 as [[] | c |]; [exact (Hn tt eq_refl) | discriminate Ho | discriminate Ho].
Qed.

(** X9: the repositories of the input are opened one after the other, in
    the order of the loop, each with one [git.PlainOpen] of its path, up
    to and including the first one whose run does not end normally; the
    repositories after that one are not opened.  A run that ends normally
    has opened all of them, and a run over an input without repositories
    makes no call. *)
Theorem repositories_in_turn {W} (git : GitLib W) repoSync w o w' tr :
  main git repoSync w = (o, w', tr) ->
  (exists done rest,
      Repos repoSync = done ++ rest
      /\ opened tr = List.map Path done
      /\ (o = Ret tt -> rest = [])
      /\ (o <> Ret tt -> done <> []))
  /\ (Repos repoSync = [] -> o = Ret tt /\ tr = [] /\ w' = w).
Proof.
  intros H. split; [exact (syncRepos_open git repoSync _ _ _ _ _ H) |].
  intros Hnil. unfold main in H. rewrite Hnil in H. cbv in H. inversion H. auto.
Qed.

Lemma repositories_in_turn_witness :
  main RefGit.lib Examples.readme Examples.fresh = Examples.readmeRun
  /\ opened (snd Examples.readmeRun) = [Examples.fooPath].
Proof.
  split; [vm_compute; reflexivity |].
  destruct (repositories_in_turn RefGit.lib Examples.readme Examples.fresh
              (fst (fst Examples.readmeRun)) (snd (fst Examples.readmeRun))
              (snd Examples.readmeRun) ltac:(vm_compute; reflexivity))
    as [(done & rest & Hrepos & Hop & Hret & _) _].
  rewrite Hop. specialize (Hret eq_refl). subst rest.
  rewrite app_nil_r in Hrepos. rewrite <- Hrepos. reflexivity.
Defined.
